(** * Noisy channels of [sage.coding.channel_constructions]

    A shallow embedding of the randomised core of the module: the position
    sampler [_random_error_position], the error-vector builder
    [_random_error_vector], the count resolver [_tuple_to_integer] and the two
    channels [StaticErrorRateChannel] and [ErrorErasureChannel], followed by
    the properties of the design document that concern them.

    Modelling conventions.
    - Integers are unbounded ([Z]); [number_errors/(n-i)] is the quotient of
      two Sage integers, a rational ([Q]); the comparison of the float
      [random()] with it is made between floats, the rational being converted
      to the nearest double.
    - The random source is part of the state threaded through every call.  It
      is recorded as two tapes, the successive values of [random()] (by the
      library contract in [0,1)) and the successive raw words from which
      [randint] and [F.random_element()] decode their result.  The statements
      range over all pairs of tapes, hence over the outputs of one generator
      however its values are shared out between the two kinds of call;
      nothing is stated that needs the two tapes to be independent.
    - Vectors handed to a channel live in a store of mutable objects and are
      passed by reference, so that in-place updates and aliasing are visible.
    - Python exceptions are an explicit outcome.  The rejection loop of
      [_random_error_vector] has no bound in the source; it is driven by a
      fuel argument and reports [OutOfFuel] when the fuel runs out. *)

From Stdlib Require Import ZArith QArith Lia.
From stdpp Require Import base list sorting gmap strings pretty.

Local Open Scope Z_scope.

(** ** Finite fields, as far as the channels use them *)

Record Field := {
  carrier :> Type;
  zero : carrier;
  add : carrier → carrier → carrier;
  neg : carrier → carrier;
  is_zero : carrier → bool;
  (** [random_element z]: the element [F.random_element()] returns when the
      generator hands it the raw word [z]. *)
  random_element : Z → carrier;
  is_zero_spec : ∀ x, is_zero x = true ↔ x = zero;
  add_comm : ∀ x y, add x y = add y x;
  add_assoc : ∀ x y z, add x (add y z) = add (add x y) z;
  add_zero_r : ∀ x, add x zero = x;
  add_neg_r : ∀ x, add x (neg x) = zero
}.

Arguments zero {_}.
Arguments add {_} _ _.
Arguments neg {_} _.
Arguments is_zero {_} _.

Definition sub {F : Field} (x y : F) : F := add x (neg y).

(** [GF(2)]: booleans under exclusive or; a raw word decodes to its parity. *)
Program Definition GF2 : Field := {|
  carrier := bool;
  zero := false;
  add := xorb;
  neg := λ b, b;
  is_zero := negb;
  random_element := Z.odd
|}.
Next Obligation. by intros []. Qed.
Next Obligation. by intros [] []. Qed.
Next Obligation. by intros [] [] []. Qed.
Next Obligation. by intros []. Qed.
Next Obligation. by intros []. Qed.

(** [GF(p)] for a prime [p], as the integers modulo [p]; only the additive
    structure is used, for which [0 < p] suffices.  A raw word decodes to its
    residue. *)
Section prime_field.
Variable p : Z.
Hypothesis p_pos : 0 < p.

Definition residue : Type := dsig (λ x : Z, 0 ≤ x < p).

Program Definition to_residue (z : Z) : residue := dexist (z mod p) _.
Next Obligation. intros z. apply Z.mod_pos_bound, p_pos. Qed.

Program Definition GF : Field := {|
  carrier := residue;
  zero := to_residue 0;
  add := λ x y, to_residue (`x + `y);
  neg := λ x, to_residue (- `x);
  is_zero := λ x, `x =? 0;
  random_element := to_residue
|}.
Next Obligation.
  intros x. rewrite Z.eqb_eq. split.
  - intros H. apply dsig_eq. simpl. rewrite H. by rewrite Z.mod_0_l by lia.
  - intros ->. simpl. apply Z.mod_0_l. lia.
Qed.
Next Obligation. intros x y. simpl. by rewrite Z.add_comm. Qed.
Next Obligation.
  intros x y z. apply dsig_eq. simpl.
  rewrite Zplus_mod_idemp_r, Zplus_mod_idemp_l. by rewrite Z.add_assoc.
Qed.
Next Obligation.
  intros x. apply dsig_eq. simpl. rewrite Z.mod_0_l, Z.add_0_r by lia.
  apply Z.mod_small. destruct x as [x Hx]. simpl.
  by apply bool_decide_unpack in Hx.
Qed.
Next Obligation.
  intros x. apply dsig_eq. simpl.
  rewrite Zplus_mod_idemp_r, Z.add_opp_diag_r. done.
Qed.
End prime_field.

(** ** Outcomes, the random source and the object store *)

Inductive exn := ValueError | TypeError | IndexError.

Inductive res (A : Type) :=
  | Ok (a : A)
  | Raise (e : exn)
  | OutOfFuel.
Arguments Ok {_} _.
Arguments Raise {_} _.
Arguments OutOfFuel {_}.

Definition loc := positive.

(** The state of a run: what the random source is going to return, and the
    store of vectors.  Sage draws everything from one generator; its output
    is recorded here by kind of call, the values returned to the successive
    calls of [random()] and the raw words handed to the successive calls of
    [randint] and [random_element()]. *)
Record world (F : Field) := World {
  uniform : nat → Q;
  entropy : nat → Z;
  heap : gmap loc (list F)
}.
Arguments World {_} _ _ _.
Arguments uniform {_} _ _.
Arguments entropy {_} _ _.
Arguments heap {_} _.

(** Dropping the first value, and the first [k] values, of a tape. *)
Definition behead {A} (s : nat → A) : nat → A := λ i, s (S i).

Fixpoint shift {A} (k : nat) (s : nat → A) : nat → A :=
  match k with
  | O => s
  | S k => shift k (behead s)
  end.

(** The world after [k] calls of [random()], and after [k] raw words were
    consumed. *)
Definition skip_uniform {F} (k : nat) (w : world F) : world F :=
  World (shift k (uniform w)) (entropy w) (heap w).

Definition skip_entropy {F} (k : nat) (w : world F) : world F :=
  World (uniform w) (shift k (entropy w)) (heap w).

(** The monad of the simulation: state passing over [world], with
    exceptions.  The world is threaded through every outcome, an exception
    does not undo the effects that precede it. *)
Definition Sim (F : Field) (A : Type) : Type := world F → res A * world F.

Global Instance sim_ret {F} : MRet (Sim F) := λ A a w, (Ok a, w).
Global Instance sim_bind {F} : MBind (Sim F) := λ A B f m w,
  match m w with
  | (Ok a, w') => f a w'
  | (Raise e, w') => (Raise e, w')
  | (OutOfFuel, w') => (OutOfFuel, w')
  end.

Definition raise {F A} (e : exn) : Sim F A := λ w, (Raise e, w).
Definition out_of_fuel {F A} : Sim F A := λ w, (OutOfFuel, w).

(** The interface the sampler needs from its random source: the test
    [random() < r], for a rational [r]. *)
Class MRandom (M : Type → Type) := random_lt : Q → M bool.

Definition Qltb (x y : Q) : bool := negb (Qle_bool y x).

(** The conversion of a rational to a float that the comparison applies to
    its rational operand: the nearest double, ties to the even significand.
    [round_half_even num den] is the integer nearest to [num/den];
    [binade a b] is the exponent [e] with [2^e <= a/b < 2^(e+1)]; a double
    in that binade is a multiple of [2^(e-52)], and of [2^-1074] in the
    subnormal range.  (Above the largest double the conversion yields
    infinity; the value here stays finite, and like infinity it is above
    every value of [random()].) *)
Definition round_half_even (num den : Z) : Z :=
  let q := num / den in
  let r := num mod den in
  match 2 * r ?= den with
  | Lt => q
  | Gt => q + 1
  | Eq => if Z.even q then q else q + 1
  end.

Definition binade (a b : Z) : Z :=
  let e := Z.log2 a - Z.log2 b in
  if (if 0 <=? e then b * 2 ^ e <=? a else b <=? a * 2 ^ (- e))
  then e else e - 1.

Definition nearest_double (a b : Z) : Q :=
  let s := Z.max (binade a b - 52) (-1074) in
  if 0 <=? s then inject_Z (round_half_even a (b * 2 ^ s) * 2 ^ s)
  else (inject_Z (round_half_even (a * 2 ^ (- s)) b) / inject_Z (2 ^ (- s)))%Q.

Definition to_float (q : Q) : Q :=
  match Qnum q with
  | 0 => 0%Q
  | Zpos _ => nearest_double (Qnum q) (Zpos (Qden q))
  | Zneg _ => (- nearest_double (- Qnum q) (Zpos (Qden q)))%Q
  end.

(** [random() < r]: the next value of [random()] against the float of [r]. *)
Global Instance sim_random {F} : MRandom (Sim F) := λ r w,
  (Ok (Qltb (uniform w 0%nat) (to_float r)), skip_uniform 1 w).

(** ** [_random_error_position] *)

Section sampler.
Context {M : Type → Type} `{!MRet M, !MBind M, !MRandom M}.

(** The [while i < n and number_errors > 0] loop, with its test
    [random() < number_errors / (n - i)].  [fuel] only makes the recursion
    structural: the loop leaves by its own test within [n] iterations (see
    [while_loop_fuel_stable]). *)
Fixpoint while_loop (fuel : nat) (n i number_errors : Z)
    (error_position : list Z) : M (list Z) :=
  match fuel with
  | O => mret error_position
  | S fuel =>
      if (i <? n) && (0 <? number_errors) then
        b ← random_lt (inject_Z number_errors / inject_Z (n - i))%Q;
        if b : bool then
          while_loop fuel n (i + 1) (number_errors - 1) (error_position ++ [i])
        else
          while_loop fuel n (i + 1) number_errors error_position
      else mret error_position
  end.

Definition _random_error_position (n number_errors : Z) : M (list Z) :=
  while_loop (Z.to_nat n) n 0 number_errors [].
End sampler.

(** ** Python containers *)

(** Index normalisation of Python sequences and of Sage vectors: a
    non-negative index counts from the front, a negative one from the back,
    anything else is an [IndexError]. *)
Definition py_index (len : nat) (i : Z) : option nat :=
  if 0 <=? i then
    if i <? Z.of_nat len then Some (Z.to_nat i) else None
  else
    if - Z.of_nat len <=? i then Some (Z.to_nat (Z.of_nat len + i)) else None.

Definition getitem {F A} (l : list A) (i : Z) : Sim F A :=
  match py_index (length l) i ≫= (l !!.) with
  | Some x => mret x
  | None => raise IndexError
  end.

Definition setitem {F A} (l : list A) (i : Z) (x : A) : Sim F (list A) :=
  match py_index (length l) i with
  | Some k => mret (<[k:=x]> l)
  | None => raise IndexError
  end.

(** [range(m)] *)
Definition range (m : Z) : list Z := seqZ 0 m.

(** [[l[i] for i in idx]] *)
Fixpoint subscript_all {F A} (l : list A) (idx : list Z) : Sim F (list A) :=
  match idx with
  | [] => mret []
  | i :: idx =>
      x ← getitem l i;
      xs ← subscript_all l idx;
      mret (x :: xs)
  end.

(** ** The random source *)

Definition next_word {F} : Sim F Z := λ w,
  (Ok (entropy w 0%nat), skip_entropy 1 w).

(** [randint(a, b)]: an integer of [[a, b]]; an empty range is a
    [ValueError]. *)
Definition randint {F} (a b : Z) : Sim F Z :=
  if a <=? b then z ← next_word; mret (a + z mod (b - a + 1))
  else raise ValueError.

(** ** [_random_error_vector] *)

Section error_vector.
Context {F : Field}.

(** [while vect[i].is_zero(): vect[i] = K.random_element()] *)
Fixpoint while_is_zero (fuel : nat) (K : Field) (vect : list K) (i : Z)
    : Sim F (list K) :=
  match fuel with
  | O => out_of_fuel
  | S fuel =>
      x ← getitem vect i;
      if is_zero x then
        z ← next_word;
        vect ← setitem vect i (random_element K z);
        while_is_zero fuel K vect i
      else mret vect
  end.

(** [for i in error_positions: ...] *)
Fixpoint for_error_positions (fuel : nat) (K : Field) (vect : list K)
    (error_positions : list Z) : Sim F (list K) :=
  match error_positions with
  | [] => mret vect
  | i :: error_positions =>
      vect ← while_is_zero fuel K vect i;
      for_error_positions fuel K vect error_positions
  end.

Definition _random_error_vector (fuel : nat) (n : Z) (K : Field)
    (error_positions : list Z) : Sim F (list K) :=
  let vect := replicate (Z.to_nat n) (zero : K) in
  for_error_positions fuel K vect error_positions.
End error_vector.

(** ** [_tuple_to_integer] *)

(** A count is an integer or a couple of integers. *)
Inductive count := Fixed (value : Z) | Range (lo hi : Z).

Definition _tuple_to_integer {F} (value : count) : Sim F Z :=
  match value with
  | Fixed value => mret value
  | Range lo hi => randint lo hi
  end.

(** ** Vectors in the store *)

Record VectorSpace (F : Field) := { dimension : Z }.
Arguments dimension {_} _.

Section store.
Context {F : Field}.

Definition load (l : loc) : Sim F (list F) := λ w,
  match heap w !! l with
  | Some v => (Ok v, w)
  | None => (Raise TypeError, w)
  end.

Definition alloc (v : list F) : Sim F loc := λ w,
  let l := fresh (dom (heap w)) in
  (Ok l, World (uniform w) (entropy w) (<[l:=v]> (heap w))).

Definition store (l : loc) (v : list F) : Sim F () := λ w,
  (Ok (), World (uniform w) (entropy w) (<[l:=v]> (heap w))).

(** [message + error_vector]: a new vector; operands of different degree
    have no common parent. *)
Definition vector_add (message : loc) (error_vector : list F) : Sim F loc :=
  v ← load message;
  if bool_decide (length v = length error_vector)
  then alloc (zip_with add v error_vector)
  else raise TypeError.

(** [message[i] = x]: in place. *)
Definition vector_setitem (message : loc) (i : Z) (x : F) : Sim F () :=
  v ← load message;
  v ← setitem v i x;
  store message v.

(** [message in V] *)
Definition space_contains (V : VectorSpace F) (message : loc) : Sim F bool :=
  λ w, match heap w !! message with
       | Some v => (Ok (bool_decide (Z.of_nat (length v) = dimension V)), w)
       | None => (Ok false, w)
       end.
End store.

(** ** Channels *)

(** Comparing counts and spaces with [==], and printing a count with [%s]:
    an integer prints in decimal, a couple as a Python tuple. *)
Global Instance count_eq_dec : EqDecision count.
Proof. solve_decision. Defined.

Global Instance VectorSpace_eq_dec {F} : EqDecision (VectorSpace F).
Proof. solve_decision. Defined.

Definition str_count (c : count) : string :=
  match c with
  | Fixed v => pretty v
  | Range lo hi => "(" +:+ pretty lo +:+ ", " +:+ pretty hi +:+ ")"
  end.

(** [c[i]]: an integer has no items. *)
Definition count_getitem (c : count) (i : Z) : res Z :=
  match c with
  | Fixed _ => Raise TypeError
  | Range lo hi =>
      match py_index 2 i with
      | Some O => Ok lo
      | Some _ => Ok hi
      | None => Raise IndexError
      end
  end.

(** What [isinstance] and the accessors see of a channel object. *)
Inductive channel_object (F : Field) :=
  | StaticErrorRateChannelObject (space : VectorSpace F) (number_errors : count)
  | ErrorErasureChannelObject (space : VectorSpace F)
      (number_errors number_erasures : count).
Arguments StaticErrorRateChannelObject {_} _ _.
Arguments ErrorErasureChannelObject {_} _ _ _.

Class AbstractChannel (F : Field) (C Out : Type) := {
  input_space : C → VectorSpace F;
  transmit_unsafe : nat → C → loc → Sim F Out
}.

Definition transmit `{AbstractChannel F C Out} (fuel : nat) (self : C)
    (message : loc) : Sim F Out :=
  inside ← space_contains (input_space self) message;
  if inside : bool then transmit_unsafe fuel self message
  else raise TypeError.

Module StaticErrorRateChannel.
Section static.
Context {F : Field}.

Record t := Build { _input_space : VectorSpace F; _number_errors : count }.

Definition __init__ (space : VectorSpace F) (number_errors : count) : res t :=
  let no_err :=
    match number_errors with Fixed v => v | Range _ hi => hi end in
  if dimension space <? no_err then Raise ValueError
  else Ok (Build space number_errors).

Definition number_errors (self : t) : count := _number_errors self.

Definition transmit_unsafe (fuel : nat) (self : t) (message : loc)
    : Sim F loc :=
  number_errors ← _tuple_to_integer (number_errors self);
  let V := _input_space self in
  let n := dimension V in
  error_position ← _random_error_position n number_errors;
  error_vector ← _random_error_vector fuel n F error_position;
  vector_add message error_vector.

Global Instance channel : AbstractChannel F t loc :=
  Build_AbstractChannel F t loc _input_space transmit_unsafe.

Definition as_object (self : t) : channel_object F :=
  StaticErrorRateChannelObject (_input_space self) (number_errors self).

Definition __eq__ (self : t) (other : channel_object F) : bool :=
  match other with
  | StaticErrorRateChannelObject space number_errors' =>
      bool_decide (_input_space self = space)
      && bool_decide (number_errors self = number_errors')
  | _ => false
  end.
End static.
Arguments t : clear implicits.
End StaticErrorRateChannel.

Module ErrorErasureChannel.
Section error_erasure.
Context {F : Field}.

Record t := Build {
  _input_space : VectorSpace F;
  _number_errors : count;
  _number_erasures : count
}.

Definition __init__ (space : VectorSpace F)
    (number_errors number_erasures : count) : res t :=
  let no_err :=
    match number_errors with Fixed v => v | Range _ hi => hi end in
  let no_era :=
    match number_erasures with Fixed v => v | Range _ hi => hi end in
  if dimension space <? no_err + no_era then Raise ValueError
  else Ok (Build space number_errors number_erasures).

Definition number_errors (self : t) : count := _number_errors self.
Definition number_erasures (self : t) : count := _number_erasures self.

(** First half of [transmit_unsafe]: the counts are resolved and the
    positions drawn and split; the result is the pair
    [(error_positions, erasure_positions)]. *)
Definition draw_positions (self : t) : Sim F (list Z * list Z) :=
  number_errors ← _tuple_to_integer (number_errors self);
  number_erasures ← _tuple_to_integer (number_erasures self);
  let V := _input_space self in
  let n := dimension V in
  erroneous_positions ←
    _random_error_position n (number_errors + number_erasures);
  error_split ←
    _random_error_position (number_errors + number_erasures) number_errors;
  error_positions ←
    subscript_all erroneous_positions
      (filter (λ i, i ∈ error_split)
         (range (number_errors + number_erasures)));
  erasure_positions ←
    subscript_all erroneous_positions
      (filter (λ i, i ∉ error_split)
         (range (number_errors + number_erasures)));
  mret (error_positions, erasure_positions).

(** [for i in erasure_positions: message[i] = 0] *)
Fixpoint for_erasure_positions (message : loc) (erasure_positions : list Z)
    : Sim F () :=
  match erasure_positions with
  | [] => mret ()
  | i :: erasure_positions =>
      _ ← vector_setitem message i zero;
      for_erasure_positions message erasure_positions
  end.

(** Second half of [transmit_unsafe]: the vectors are built and the
    message corrupted. *)
Definition corrupt (fuel : nat) (n : Z) (message : loc)
    (error_positions erasure_positions : list Z) : Sim F (loc * list GF2) :=
  error_vector ← _random_error_vector fuel n F error_positions;
  erasure_vector ← _random_error_vector fuel n GF2 erasure_positions;
  message ← vector_add message error_vector;
  _ ← for_erasure_positions message erasure_positions;
  mret (message, erasure_vector).

Definition transmit_unsafe (fuel : nat) (self : t) (message : loc)
    : Sim F (loc * list GF2) :=
  positions ← draw_positions self;
  corrupt fuel (dimension (_input_space self)) message positions.1 positions.2.

Global Instance channel : AbstractChannel F t (loc * list GF2) :=
  Build_AbstractChannel F t (loc * list GF2) _input_space transmit_unsafe.

Definition as_object (self : t) : channel_object F :=
  ErrorErasureChannelObject (_input_space self) (number_errors self)
    (number_erasures self).

Definition __eq__ (self : t) (other : channel_object F) : bool :=
  match other with
  | ErrorErasureChannelObject space number_errors' number_erasures' =>
      bool_decide (_input_space self = space)
      && bool_decide (number_errors self = number_errors')
      && bool_decide (number_erasures self = number_erasures')
  | _ => false
  end.

(** The tuple [(no_err[0], no_err[1], no_era[0], no_era[1])] that the range
    branch of [__repr__] and of [_latex_] hands to [%]. *)
Definition bounds (no_err no_era : count) : res (Z * Z * Z * Z) :=
  match count_getitem no_err 0 with
  | Ok a =>
      match count_getitem no_err 1 with
      | Ok b =>
          match count_getitem no_era 0 with
          | Ok c =>
              match count_getitem no_era 1 with
              | Ok d => Ok (a, b, c, d)
              | Raise e => Raise e
              | OutOfFuel => OutOfFuel
              end
          | Raise e => Raise e
          | OutOfFuel => OutOfFuel
          end
      | Raise e => Raise e
      | OutOfFuel => OutOfFuel
      end
  | Raise e => Raise e
  | OutOfFuel => OutOfFuel
  end.

Definition __repr__ (self : t) : res string :=
  match number_errors self with
  | Fixed _ =>
      Ok ("Error-and-erasure channel creating "
            +:+ str_count (number_errors self) +:+ " error(s) and "
            +:+ str_count (number_erasures self) +:+ " erasure(s)")
  | Range _ _ =>
      let no_err := number_errors self in
      let no_era := number_erasures self in
      match bounds no_err no_era with
      | Ok (a, b, c, d) =>
          Ok ("Error-and-erasure channel creating between "
                +:+ pretty a +:+ " and " +:+ pretty b
                +:+ " errors and between "
                +:+ pretty c +:+ " and " +:+ pretty d +:+ " erasures")
      | Raise e => Raise e
      | OutOfFuel => OutOfFuel
      end
  end.

Definition _latex_ (self : t) : res string :=
  match number_errors self with
  | Fixed _ =>
      Ok ("\textnormal{Error-and-erasure channel creating "
            +:+ str_count (number_errors self) +:+ " error(s) and "
            +:+ str_count (number_erasures self) +:+ " erasure(s)}")
  | Range _ _ =>
      let no_err := number_errors self in
      let no_era := number_erasures self in
      match bounds no_err no_era with
      | Ok (a, b, c, d) =>
          Ok ("\textnormal{Error-and-erasure channel creating between "
                +:+ pretty a +:+ " and " +:+ pretty b
                +:+ " errors and between "
                +:+ pretty c +:+ " and " +:+ pretty d +:+ " erasures}")
      | Raise e => Raise e
      | OutOfFuel => OutOfFuel
      end
  end.
End error_erasure.
Arguments t : clear implicits.
End ErrorErasureChannel.

(** ** Notions used in the statements *)

(** The contract of [random()]: every value lies in [0,1). *)
Definition unit_tape (u : nat → Q) : Prop := ∀ i, (0 <= u i < 1)%Q.

(** The raw tape keeps producing words that [K.random_element()] decodes to
    a non-zero element: the rejection loop over [K] always ends. *)
Definition fair (K : Field) (s : nat → Z) : Prop :=
  ∀ i, ∃ j, (i ≤ j)%nat ∧ is_zero (random_element K (s j)) = false.

(** How many members of [l] lie below [j]. *)
Definition below (j : Z) (l : list Z) : Z :=
  Z.of_nat (length (filter (λ x, x < j) l)).

(** What a configured count may resolve to, its upper bound, and the counts
    of the data model: non-negative, with ordered bounds. *)
Definition resolves (c : count) (e : Z) : Prop :=
  match c with
  | Fixed v => e = v
  | Range lo hi => lo ≤ e ≤ hi
  end.

Definition upper_bound (c : count) : Z :=
  match c with
  | Fixed v => v
  | Range _ hi => hi
  end.

Definition proper (c : count) : Prop :=
  match c with
  | Fixed v => 0 ≤ v
  | Range lo hi => 0 ≤ lo ≤ hi
  end.

(** The vector left by [for i in erasure_positions: message[i] = 0]. *)
Definition erase_all {F : Field} (erasure_positions : list Z) (u : list F)
    : list F :=
  foldl (λ u i, <[Z.to_nat i:=zero]> u) u erasure_positions.

(** [frames D m Q]: run from any world whose store contains the objects
    [D], the computation [m] leaves every object of [D] as it was, whatever
    its outcome, and a returned value satisfies [Q]. *)
Definition frames {F A} (D : gset loc) (m : Sim F A) (Q : A → Prop) : Prop :=
  ∀ w, D ⊆ dom (heap w) →
    (∀ l, l ∈ D → heap (m w).2 !! l = heap w !! l) ∧
    match (m w).1 with
    | Ok a => Q a
    | _ => True
    end.

(** Hamming weight and coordinate-wise difference. *)
Definition hamming_weight {F : Field} (v : list F) : Z :=
  Z.of_nat (length (filter (λ x, is_zero x = false) v)).

Definition vector_sub {F : Field} (u v : list F) : list F := zip_with sub u v.

(** The positions an indicator vector marks as erased, and the positions at
    which a received vector differs from the one sent. *)
Definition erased (indicator : list GF2) (i : nat) : Prop :=
  indicator !! i = Some true.


(** A difference vector read outside the positions an indicator marks: the
    marked coordinates are set aside (zero). *)
Definition outside_erasures {F : Field} (indicator : list GF2) (d : list F)
    : list F :=
  zip_with (λ (b : bool) x, if b then zero else x) indicator d.

(** ** Concrete scenarios *)

(** A random source whose draws are all 1/2 and whose raw words are all 1,
    over a store that holds one message, at address 1. *)
Definition demo_world {F : Field} (message : list F) : world F :=
  World (λ _, 1 # 2)%Q (λ _, 1) {[ 1%positive := message ]}.

Definition GF59 : Field := GF 59 eq_refl.

(** The 6-dimensional and 11-dimensional messages over [GF(59)] of the
    module's examples. *)
Definition msg6 : list GF59 :=
  to_residue 59 eq_refl <$> [4; 8; 15; 16; 23; 42].

Definition msg11 : list GF59 :=
  to_residue 59 eq_refl <$> [3; 14; 15; 9; 26; 53; 58; 9; 7; 9; 3].

Definition V6 : VectorSpace GF59 := {| dimension := 6 |}.
Definition V11 : VectorSpace GF59 := {| dimension := 11 |}.

Definition msg1 : list GF2 := [true].

(** ** Tapes and worlds *)

Lemma shift_behead {A} k (s : nat → A) : behead (shift k s) = shift k (behead s).
Proof. revert s. induction k as [|k IH]; intros s; simpl; auto. Qed.

Lemma shift_S {A} k (s : nat → A) : shift (S k) s = behead (shift k s).
Proof. by rewrite shift_behead. Qed.

Lemma shift_shift {A} a b (s : nat → A) : shift a (shift b s) = shift (b + a) s.
Proof. revert s. induction b as [|b IH]; intros s; [done|]. simpl. by rewrite IH. Qed.

Lemma shift_at {A} k (s : nat → A) i : shift k s i = s (k + i)%nat.
Proof.
  revert s. induction k as [|k IH]; intros s; [done|].
  simpl. by rewrite IH.
Qed.

Lemma skip_uniform_skip {F} a b (w : world F) :
  skip_uniform a (skip_uniform b w) = skip_uniform (b + a) w.
Proof. unfold skip_uniform. simpl. by rewrite shift_shift. Qed.

Lemma skip_entropy_skip {F} a b (w : world F) :
  skip_entropy a (skip_entropy b w) = skip_entropy (b + a) w.
Proof. unfold skip_entropy. simpl. by rewrite shift_shift. Qed.

Lemma skip_uniform_0 {F} (w : world F) : skip_uniform 0 w = w.
Proof. by destruct w. Qed.

Lemma skip_entropy_0 {F} (w : world F) : skip_entropy 0 w = w.
Proof. by destruct w. Qed.

Lemma unit_tape_shift k u : unit_tape u → unit_tape (shift k u).
Proof. intros H i. rewrite shift_at. apply H. Qed.

Lemma fair_shift K k s : fair K s → fair K (shift k s).
Proof.
  intros H i. destruct (H (k + i)%nat) as (j & Hj & Hz).
  exists (j - k)%nat. split; [lia|]. rewrite shift_at.
  by replace (k + (j - k))%nat with j by lia.
Qed.

(** ** Ratios and their floats *)

Lemma Qltb_lt x y : Qltb x y = true ↔ (x < y)%Q.
Proof.
  unfold Qltb. rewrite negb_true_iff. split.
  - intros H. apply Qnot_le_lt. intros Hle.
    apply Qle_bool_iff in Hle. congruence.
  - intros H. destruct (Qle_bool y x) eqn:E; [|done].
    apply Qle_bool_iff in E. exfalso. exact (Qlt_not_le _ _ H E).
Qed.

Lemma inject_Z_pos m : 0 < m → (0 < inject_Z m)%Q.
Proof. intros. change 0%Q with (inject_Z 0). by rewrite <- Zlt_Qlt. Qed.

Lemma round_half_even_ge num den : num / den ≤ round_half_even num den.
Proof.
  unfold round_half_even. destruct (2 * (num mod den) ?= den); [|lia..].
  destruct (Z.even (num / den)); lia.
Qed.

Lemma binade_ge a b :
  0 < b → b ≤ a → 0 ≤ binade a b ∧ b * 2 ^ binade a b ≤ a.
Proof.
  intros Hb Hab. unfold binade.
  pose proof (Z.log2_le_mono b a Hab) as Hmono.
  pose proof (Z.log2_nonneg b) as Hnn.
  set (e := Z.log2 a - Z.log2 b).
  assert (0 ≤ e) as He by (unfold e; lia).
  destruct (0 <=? e) eqn:E0; [|apply Z.leb_gt in E0; lia].
  destruct (b * 2 ^ e <=? a) eqn:E1.
  - apply Z.leb_le in E1. done.
  - apply Z.leb_gt in E1.
    assert (e ≠ 0) as Hne by (intros Hz; rewrite Hz in E1; simpl in E1; lia).
    split; [lia|].
    destruct (Z.log2_spec b Hb) as [_ Hbhi].
    destruct (Z.log2_spec a ltac:(lia)) as [Halo _].
    assert (2 ^ Z.succ (Z.log2 b) * 2 ^ (e - 1) = 2 ^ Z.log2 a) as Hpow.
    { rewrite <- Z.pow_add_r by lia. f_equal. unfold e. lia. }
    assert (0 < 2 ^ (e - 1)) as Hpos by (apply Z.pow_pos_nonneg; lia).
    nia.
Qed.

Lemma nearest_double_ge_1 a b : 0 < b → b ≤ a → (1 <= nearest_double a b)%Q.
Proof.
  intros Hb Hab. destruct (binade_ge a b Hb Hab) as [He Hle].
  unfold nearest_double. set (e := binade a b) in *.
  replace (Z.max (e - 52) (-1074)) with (e - 52) by lia.
  destruct (0 <=? e - 52) eqn:Es.
  - apply Z.leb_le in Es. change 1%Q with (inject_Z 1). rewrite <- Zle_Qle.
    pose proof (round_half_even_ge a (b * 2 ^ (e - 52))) as Hr.
    assert (0 < 2 ^ (e - 52)) as Hpos by (apply Z.pow_pos_nonneg; lia).
    assert (2 ^ (e - 52) ≤ 2 ^ e) as Hpw by (apply Z.pow_le_mono_r; lia).
    assert (1 ≤ a / (b * 2 ^ (e - 52))) as Hq.
    { apply Z.div_le_lower_bound; nia. }
    nia.
  - apply Z.leb_gt in Es.
    pose proof (round_half_even_ge (a * 2 ^ (- (e - 52))) b) as Hr.
    assert (0 < 2 ^ (- (e - 52))) as Hpos by (apply Z.pow_pos_nonneg; lia).
    assert (2 ^ (- (e - 52)) ≤ a * 2 ^ (- (e - 52)) / b) as Hq.
    { apply Z.div_le_lower_bound; nia. }
    apply Qle_shift_div_l.
    + change 0%Q with (inject_Z 0). by rewrite <- Zlt_Qlt.
    + rewrite Qmult_1_l, <- Zle_Qle. lia.
Qed.

(** A rational that is at least 1 converts to a float that is at least 1,
    and 0 to 0: the two ends at which the outcome of the test does not depend
    on the draw. *)
Lemma to_float_ge_1 q : (1 <= q)%Q → (1 <= to_float q)%Q.
Proof.
  destruct q as [a b]. unfold Qle. simpl. intros H.
  unfold to_float. simpl.
  destruct a as [|a|a]; [lia| |lia].
  apply nearest_double_ge_1; lia.
Qed.

Lemma to_float_0 q : (q == 0)%Q → to_float q = 0%Q.
Proof.
  destruct q as [a b]. unfold Qeq. simpl. intros H.
  assert (a = 0) as -> by lia. done.
Qed.

Lemma ratio_ge_1 (u : Q) k m :
  0 < m → m ≤ k → (u < 1)%Q → (u < to_float (inject_Z k / inject_Z m))%Q.
Proof.
  intros Hm Hk Hu. eapply Qlt_le_trans; [exact Hu|].
  apply to_float_ge_1, Qle_shift_div_l; [by apply inject_Z_pos|].
  rewrite Qmult_1_l. by rewrite <- Zle_Qle.
Qed.

Lemma ratio_0 (u : Q) m :
  (0 <= u)%Q → ¬ (u < to_float (inject_Z 0 / inject_Z m))%Q.
Proof.
  intros Hu H. rewrite to_float_0 in H.
  - exact (Qlt_not_le _ _ H Hu).
  - unfold Qdiv. apply Qmult_0_l.
Qed.

(** ** Running the simulation monad *)

Lemma bind_ok {F A B} (m : Sim F A) (f : A → Sim F B) w a w' :
  m w = (Ok a, w') → (m ≫= f) w = f a w'.
Proof. intros H. unfold mbind, sim_bind. by rewrite H. Qed.

Lemma bind_raise {F A B} (m : Sim F A) (f : A → Sim F B) w e w' :
  m w = (Raise e, w') → (m ≫= f) w = (Raise e, w').
Proof. intros H. unfold mbind, sim_bind. by rewrite H. Qed.

Lemma bind_out_of_fuel {F A B} (m : Sim F A) (f : A → Sim F B) w w' :
  m w = (OutOfFuel, w') → (m ≫= f) w = (OutOfFuel, w').
Proof. intros H. unfold mbind, sim_bind. by rewrite H. Qed.

Lemma bind_random_lt {F B} r (f : bool → Sim F B) w :
  (random_lt r ≫= f) w
  = f (Qltb (uniform w 0%nat) (to_float r)) (skip_uniform 1 w).
Proof. done. Qed.

Lemma bind_next_word {F B} (f : Z → Sim F B) w :
  (next_word ≫= f) w = f (entropy w 0%nat) (skip_entropy 1 w).
Proof. done. Qed.

(** ** The position sampler on a tape of draws *)

Lemma below_nil j : below j [] = 0.
Proof. done. Qed.

Lemma below_all_ge j l : Forall (λ x, j ≤ x) l → below j l = 0.
Proof.
  intros H. unfold below. induction H as [|x l Hx _ IH]; [done|].
  rewrite filter_cons_False by lia. done.
Qed.

Lemma below_cons_lt j x l : x < j → below j (x :: l) = 1 + below j l.
Proof.
  intros H. unfold below. rewrite filter_cons_True by done. simpl length. lia.
Qed.

Lemma while_loop_sim {F} fuel n i k acc (w : world F) :
  n - i ≤ Z.of_nat fuel → 0 ≤ k ≤ n - i → unit_tape (uniform w) →
  ∃ l m,
    while_loop (M:=Sim F) fuel n i k acc w
      = (Ok (acc ++ l), skip_uniform m w) ∧
    Z.of_nat (length l) = k ∧
    StronglySorted Z.lt l ∧
    Forall (λ x, i ≤ x < n) l ∧
    Z.of_nat m ≤ n - i ∧ Forall (λ x, x < i + Z.of_nat m) l ∧
    ∀ j, i ≤ j < n →
      j ∈ l ↔
      (uniform w (Z.to_nat (j - i))
         < to_float (inject_Z (k - below j l) / inject_Z (n - j)))%Q.
Proof.
  revert i k acc w. induction fuel as [|fuel IH]; intros i k acc w Hf Hk Hu.
  { exists [], 0%nat. rewrite app_nil_r, skip_uniform_0.
    repeat split; try done; try constructor; simpl; intros; lia. }
  simpl. destruct ((i <? n) && (0 <? k)) eqn:E.
  - apply andb_true_iff in E as [Hi Hk0].
    apply Z.ltb_lt in Hi, Hk0.
    rewrite bind_random_lt.
    destruct (Qltb (uniform w 0%nat) _) eqn:Eb.
    + destruct (IH (i + 1) (k - 1) (acc ++ [i]) (skip_uniform 1 w))
        as (l & m & Hrun & Hlen & Hsort & Hrange & Hm & Hseen & Hmem);
        [lia|lia|by apply unit_tape_shift|].
      exists (i :: l), (1 + m)%nat.
      rewrite Hrun, skip_uniform_skip, <- app_assoc. simpl app.
      split; [done|]. split; [simpl length; lia|]. split.
      { constructor; [done|]. eapply Forall_impl; [exact Hrange|]. simpl. lia. }
      split.
      { constructor; [lia|]. eapply Forall_impl; [exact Hrange|]. simpl. lia. }
      split; [lia|]. split.
      { constructor; [lia|]. eapply Forall_impl; [exact Hseen|]. simpl. lia. }
      intros j Hj. destruct (decide (j = i)) as [->|Hne].
      * rewrite below_all_ge.
        2:{ constructor; [lia|]. eapply Forall_impl; [exact Hrange|].
            simpl. lia. }
        rewrite Z.sub_diag, Z.sub_0_r. apply Qltb_lt in Eb.
        split; [done|]. intros _. left.
      * rewrite below_cons_lt by lia.
        rewrite elem_of_cons. specialize (Hmem j ltac:(lia)).
        simpl in Hmem. unfold behead in Hmem.
        replace (S (Z.to_nat (j - (i + 1)))) with (Z.to_nat (j - i)) in Hmem
          by lia.
        replace (k - (1 + below j l)) with (k - 1 - below j l) by lia.
        rewrite <- Hmem. split; [intros [?|?]; [lia|done]|by right].
    + assert (k < n - i) as Hlt.
      { destruct (decide (k = n - i)) as [->|]; [|lia].
        assert (Qltb (uniform w 0%nat)
                  (to_float (inject_Z (n - i) / inject_Z (n - i))) = true)
          as E';
          [|congruence].
        apply Qltb_lt, ratio_ge_1; [lia|lia|apply Hu]. }
      destruct (IH (i + 1) k acc (skip_uniform 1 w))
        as (l & m & Hrun & Hlen & Hsort & Hrange & Hm & Hseen & Hmem);
        [lia|lia|by apply unit_tape_shift|].
      exists l, (1 + m)%nat. rewrite Hrun, skip_uniform_skip.
      split; [done|]. split; [done|]. split; [done|]. split.
      { eapply Forall_impl; [exact Hrange|]. simpl. lia. }
      split; [lia|]. split.
      { eapply Forall_impl; [exact Hseen|]. simpl. lia. }
      intros j Hj. destruct (decide (j = i)) as [->|Hne].
      * rewrite below_all_ge.
        2:{ eapply Forall_impl; [exact Hrange|]. simpl. lia. }
        rewrite Z.sub_diag, Z.sub_0_r. split.
        -- intros Hin. rewrite Forall_forall in Hrange.
           specialize (Hrange _ Hin). simpl in Hrange. lia.
        -- intros Hlt'. change (Z.to_nat 0) with 0%nat in Hlt'.
           apply Qltb_lt in Hlt'. congruence.
      * specialize (Hmem j ltac:(lia)). simpl in Hmem. unfold behead in Hmem.
        replace (S (Z.to_nat (j - (i + 1)))) with (Z.to_nat (j - i)) in Hmem
          by lia.
        done.
  - assert (k = 0) as ->.
    { apply andb_false_iff in E as [E|E];
        [apply Z.ltb_ge in E|apply Z.ltb_ge in E]; lia. }
    exists [], 0%nat. rewrite app_nil_r, skip_uniform_0.
    split; [done|]. split; [done|]. split; [constructor|].
    split; [constructor|]. split; [simpl; lia|]. split; [constructor|].
    intros j Hj. rewrite below_nil. split; [by intros ?%elem_of_nil|].
    intros H. exfalso. eapply ratio_0; [|exact H]. apply Hu.
Qed.

Lemma sampler_sim {F} n k (w : world F) :
  0 ≤ k ≤ n → unit_tape (uniform w) →
  ∃ l m,
    _random_error_position (M:=Sim F) n k w = (Ok l, skip_uniform m w) ∧
    Z.of_nat (length l) = k ∧
    StronglySorted Z.lt l ∧
    Forall (λ x, 0 ≤ x < n) l ∧
    Z.of_nat m ≤ n ∧ Forall (λ x, x < Z.of_nat m) l ∧
    ∀ j, 0 ≤ j < n →
      j ∈ l ↔
      (uniform w (Z.to_nat j)
         < to_float (inject_Z (k - below j l) / inject_Z (n - j)))%Q.
Proof.
  intros Hk Hu. unfold _random_error_position.
  destruct (while_loop_sim (Z.to_nat n) n 0 k [] w)
    as (l & m & Hrun & Hlen & Hsort & Hrange & Hm & Hseen & Hmem);
    [lia|lia|done|].
  exists l, m. rewrite Hrun.
  split; [done|]. split; [done|]. split; [done|]. split; [done|].
  split; [lia|]. split; [done|].
  intros j Hj. specialize (Hmem j Hj). by rewrite Z.sub_0_r in Hmem.
Qed.

Lemma StronglySorted_lt_NoDup (l : list Z) : StronglySorted Z.lt l → NoDup l.
Proof.
  induction 1 as [|x l _ IH Hx]; constructor; [|done].
  intros Hin. rewrite Forall_forall in Hx. specialize (Hx _ Hin). lia.
Qed.

Lemma while_loop_S `{!MRet M, !MBind M, !MRandom M} fuel n i k acc :
  while_loop (M:=M) (S fuel) n i k acc =
  if (i <? n) && (0 <? k) then
    b ← random_lt (inject_Z k / inject_Z (n - i))%Q;
    if b : bool then while_loop fuel n (i + 1) (k - 1) (acc ++ [i])
    else while_loop fuel n (i + 1) k acc
  else mret acc.
Proof. done. Qed.

(** The fuel never cuts the loop short: one more unit changes nothing. *)
Lemma while_loop_fuel_stable {F} fuel n i k acc (w : world F) :
  n - i ≤ Z.of_nat fuel →
  while_loop (M:=Sim F) (S fuel) n i k acc w
  = while_loop (M:=Sim F) fuel n i k acc w.
Proof.
  revert i k acc w. induction fuel as [|fuel IH]; intros i k acc w Hf.
  - simpl. destruct (i <? n) eqn:E; [apply Z.ltb_lt in E; lia|done].
  - rewrite (while_loop_S fuel n i k acc), (while_loop_S (S fuel)).
    destruct ((i <? n) && (0 <? k)); [|done].
    rewrite !bind_random_lt. destruct (Qltb _ _); apply IH; lia.
Qed.

(** Without any demand the loop body never runs. *)
Lemma while_loop_no_demand {F} fuel n i k acc (w : world F) :
  k ≤ 0 → while_loop (M:=Sim F) fuel n i k acc w = (Ok acc, w).
Proof.
  intros Hk. destruct fuel; [done|]. simpl.
  destruct (0 <? k) eqn:E; [apply Z.ltb_lt in E; lia|].
  by rewrite andb_false_r.
Qed.

(** With more demand than candidates every candidate is taken. *)
Lemma while_loop_overshoot {F} fuel n i k acc (w : world F) :
  n - i ≤ Z.of_nat fuel → n - i < k → unit_tape (uniform w) →
  ∃ m, while_loop (M:=Sim F) fuel n i k acc w
       = (Ok (acc ++ seqZ i (n - i)), skip_uniform m w).
Proof.
  revert i k acc w. induction fuel as [|fuel IH]; intros i k acc w Hf Hk Hu.
  { exists 0%nat. rewrite seqZ_nil by lia.
    by rewrite app_nil_r, skip_uniform_0. }
  simpl. destruct (i <? n) eqn:Ei.
  - apply Z.ltb_lt in Ei.
    destruct (0 <? k) eqn:Ek; [|apply Z.ltb_ge in Ek; lia].
    simpl. rewrite bind_random_lt.
    assert (Qltb (uniform w 0%nat) (to_float (inject_Z k / inject_Z (n - i)))
            = true)
      as -> by (apply Qltb_lt, ratio_ge_1; [lia|lia|apply Hu]).
    destruct (IH (i + 1) (k - 1) (acc ++ [i]) (skip_uniform 1 w))
      as (m & Hrun); [lia|lia|by apply unit_tape_shift|].
    exists (1 + m)%nat. rewrite Hrun, skip_uniform_skip, <- app_assoc.
    rewrite (seqZ_cons i (n - i)) by lia.
    by replace (Z.pred (n - i)) with (n - (i + 1)) by lia.
  - apply Z.ltb_ge in Ei. exists 0%nat. rewrite seqZ_nil by lia.
    by rewrite app_nil_r, skip_uniform_0.
Qed.

(** The loop raises nothing, whatever it is asked. *)
Lemma while_loop_total {F} fuel n i k acc (w : world F) :
  ∃ l m, while_loop (M:=Sim F) fuel n i k acc w = (Ok l, skip_uniform m w).
Proof.
  revert i k acc w. induction fuel as [|fuel IH]; intros i k acc w.
  { exists acc, 0%nat. by rewrite skip_uniform_0. }
  rewrite while_loop_S. destruct (_ && _).
  - rewrite bind_random_lt.
    destruct (Qltb _ _);
      [destruct (IH (i + 1) (k - 1) (acc ++ [i]) (skip_uniform 1 w))
         as (l & m & ->)
      |destruct (IH (i + 1) k acc (skip_uniform 1 w)) as (l & m & ->)];
      exists l, (1 + m)%nat; by rewrite skip_uniform_skip.
  - exists acc, 0%nat. by rewrite skip_uniform_0.
Qed.

(** ** Indexing *)

Lemma py_index_nonneg len i :
  0 ≤ i < Z.of_nat len → py_index len i = Some (Z.to_nat i).
Proof.
  intros H. unfold py_index.
  destruct (0 <=? i) eqn:E1; [|apply Z.leb_gt in E1; lia].
  destruct (i <? Z.of_nat len) eqn:E2; [done|apply Z.ltb_ge in E2; lia].
Qed.

Lemma getitem_ok {F A} (l : list A) i x (w : world F) :
  0 ≤ i → l !! Z.to_nat i = Some x → getitem l i w = (Ok x, w).
Proof.
  intros Hi Hx. unfold getitem. rewrite py_index_nonneg.
  - simpl. by rewrite Hx.
  - apply lookup_lt_Some in Hx. lia.
Qed.

Lemma setitem_ok {F A} (l : list A) i x (w : world F) :
  0 ≤ i < Z.of_nat (length l) →
  setitem l i x w = (Ok (<[Z.to_nat i:=x]> l), w).
Proof. intros Hi. unfold setitem. by rewrite py_index_nonneg. Qed.

(** ** The error-vector builder *)

Lemma is_zero_zero (K : Field) : is_zero (zero : K) = true.
Proof. by apply is_zero_spec. Qed.

(** A non-zero coordinate is left alone; a zero coordinate costs one draw. *)
Lemma while_is_zero_done {F} (K : Field) fuel (vect : list K) i x0
    (w : world F) :
  0 ≤ i → vect !! Z.to_nat i = Some x0 → is_zero x0 = false →
  while_is_zero (S fuel) K vect i w = (Ok vect, w).
Proof.
  intros Hi Hx Hnz. simpl.
  erewrite bind_ok by (by apply getitem_ok). by rewrite Hnz.
Qed.

Lemma while_is_zero_redraw {F} (K : Field) fuel (vect : list K) i x0
    (w : world F) :
  0 ≤ i → vect !! Z.to_nat i = Some x0 → is_zero x0 = true →
  while_is_zero (S fuel) K vect i w
  = while_is_zero fuel K
      (<[Z.to_nat i:=random_element K (entropy w 0%nat)]> vect) i
      (skip_entropy 1 w).
Proof.
  intros Hi Hx Hz. simpl.
  erewrite bind_ok by (by apply getitem_ok).
  rewrite Hz, bind_next_word.
  erewrite bind_ok; [done|].
  apply setitem_ok. apply lookup_lt_Some in Hx. lia.
Qed.

Lemma while_is_zero_sim {F} (K : Field) j (vect : list K) i x0 (w : world F) :
  0 ≤ i → vect !! Z.to_nat i = Some x0 →
  is_zero (random_element K (entropy w j)) = false →
  ∃ m y,
    (∀ fuel, (j + 2 ≤ fuel)%nat →
       while_is_zero fuel K vect i w
       = (Ok (<[Z.to_nat i:=y]> vect), skip_entropy m w)) ∧
    is_zero y = false ∧
    (is_zero x0 = false → y = x0).
Proof.
  revert vect x0 w. induction j as [|j IH]; intros vect x0 w Hi Hx Hj.
  all: destruct (is_zero x0) eqn:Ex0.
  all: try (exists 0%nat, x0; split; [|done];
            intros [|fuel] Hfuel; [lia|];
            rewrite list_insert_id, skip_entropy_0 by done;
            by eapply while_is_zero_done).
  all: set (z := random_element K (entropy w 0%nat)) in *.
  all: assert (<[Z.to_nat i:=z]> vect !! Z.to_nat i = Some z) as Hz
         by (apply list_lookup_insert_eq; by eapply lookup_lt_Some).
  - (* the first draw is the non-zero one *)
    exists 1%nat, z. split; [|done].
    intros [|[|fuel]] Hfuel; [lia|lia|].
    erewrite while_is_zero_redraw by done.
    by eapply while_is_zero_done.
  - destruct (is_zero z) eqn:Ez.
    + (* a zero is drawn: the search goes on from the next word *)
      destruct (IH (<[Z.to_nat i:=z]> vect) z (skip_entropy 1 w))
        as (m & y & Hrun & Hy & _); [done..|].
      exists (1 + m)%nat, y. split; [|done].
      intros [|fuel] Hfuel; [lia|].
      erewrite while_is_zero_redraw by done.
      rewrite Hrun by lia.
      by rewrite list_insert_insert_eq, skip_entropy_skip.
    + exists 1%nat, z. split; [|done].
      intros [|[|fuel]] Hfuel; [lia|lia|].
      erewrite while_is_zero_redraw by done.
      by eapply while_is_zero_done.
Qed.

Lemma for_error_positions_sim {F} (K : Field) positions (vect : list K)
    (w : world F) :
  Forall (λ i, 0 ≤ i < Z.of_nat (length vect)) positions →
  fair K (entropy w) →
  ∃ fuel0 m vect',
    (∀ fuel, (fuel0 ≤ fuel)%nat →
       for_error_positions fuel K vect positions w
       = (Ok vect', skip_entropy m w)) ∧
    length vect' = length vect ∧
    ∀ i x, 0 ≤ i → vect !! Z.to_nat i = Some x →
      ∃ y, vect' !! Z.to_nat i = Some y ∧
        (is_zero x = false → y = x) ∧
        (i ∈ positions → is_zero y = false) ∧
        (i ∉ positions → y = x).
Proof.
  revert vect w.
  induction positions as [|p positions IH]; intros vect w Hpos Hfair.
  { exists 0%nat, 0%nat, vect. split.
    - intros fuel _. simpl. by rewrite skip_entropy_0.
    - split; [done|]. intros i x _ Hx. exists x.
      repeat split; try done. by intros ?%elem_of_nil. }
  apply Forall_cons in Hpos as [Hp Hpos].
  destruct (lookup_lt_is_Some_2 vect (Z.to_nat p)) as [x0 Hx0]; [lia|].
  destruct (Hfair 0%nat) as (j & _ & Hj).
  destruct (while_is_zero_sim K j vect p x0 w)
    as (m1 & y1 & Hrun1 & Hy1 & Hkeep1); [lia|done|done|].
  destruct (IH (<[Z.to_nat p:=y1]> vect) (skip_entropy m1 w))
    as (fuel0 & m2 & vect' & Hrun2 & Hlen2 & Hprop2).
  { by rewrite length_insert. }
  { simpl. by apply fair_shift. }
  exists (max (j + 2) fuel0)%nat, (m1 + m2)%nat, vect'. split.
  { intros fuel Hfuel. simpl.
    erewrite bind_ok by (apply Hrun1; lia).
    rewrite Hrun2 by lia. by rewrite skip_entropy_skip. }
  split; [by rewrite Hlen2, length_insert|].
  intros i x Hi Hx. destruct (decide (i = p)) as [->|Hne].
  - assert (x = x0) as -> by congruence.
    destruct (Hprop2 p y1) as (y & Hy & Hk & _);
      [done|by apply list_lookup_insert_eq; lia|].
    assert (y = y1) as -> by auto. exists y1.
    split; [done|]. split; [exact Hkeep1|]. split; [done|].
    intros Hnot. exfalso. apply Hnot. left.
  - destruct (Hprop2 i x) as (y & Hy & Hk & Hin & Hout); [done| |].
    { rewrite list_lookup_insert_ne; [done|lia]. }
    exists y. split; [done|]. split; [done|]. split.
    + intros [->|?]%elem_of_cons; [done|auto].
    + intros Hnot. apply Hout. intros ?. apply Hnot. by right.
Qed.

Lemma random_error_vector_sim {F} (K : Field) n positions (w : world F) :
  Forall (λ i, 0 ≤ i < n) positions →
  fair K (entropy w) →
  ∃ fuel0 m vect,
    (∀ fuel, (fuel0 ≤ fuel)%nat →
       _random_error_vector fuel n K positions w
       = (Ok vect, skip_entropy m w)) ∧
    length vect = Z.to_nat n ∧
    ∀ i, 0 ≤ i < n →
      ∃ y, vect !! Z.to_nat i = Some y ∧
        (i ∈ positions → is_zero y = false) ∧
        (i ∉ positions → y = zero).
Proof.
  intros Hpos Hfair. unfold _random_error_vector.
  destruct (for_error_positions_sim K positions
              (replicate (Z.to_nat n) (zero : K)) w)
    as (fuel0 & m & vect & Hrun & Hlen & Hprop); [|done|].
  { rewrite length_replicate. eapply Forall_impl; [exact Hpos|].
    simpl. lia. }
  exists fuel0, m, vect. split; [done|].
  rewrite length_replicate in Hlen. split; [done|].
  intros i Hi. destruct (Hprop i zero) as (y & Hy & _ & Hin & Hout);
    [lia|apply lookup_replicate_2; lia|].
  exists y. done.
Qed.

(** ** Counting non-zero coordinates *)

Lemma weight_count {F : Field} (vect : list F) (off : Z) (P : list Z) :
  NoDup P →
  Forall (λ p, off ≤ p < off + Z.of_nat (length vect)) P →
  (∀ k x, vect !! k = Some x →
     is_zero x = false ↔ off + Z.of_nat k ∈ P) →
  length (filter (λ x, is_zero x = false) vect) = length P.
Proof.
  revert off P. induction vect as [|x vect IH]; intros off P Hnd Hrange Hchar.
  { destruct P as [|p P]; [done|].
    apply Forall_cons in Hrange as [Hp _]. simpl in Hp. lia. }
  destruct (is_zero x) eqn:Ex.
  - rewrite filter_cons_False by congruence.
    apply (IH (off + 1)); [done| |].
    + rewrite Forall_forall in Hrange |- *. intros p Hp.
      specialize (Hrange p Hp). simpl in Hrange.
      assert (p ≠ off); [|lia]. intros ->.
      specialize (Hchar 0%nat x eq_refl).
      rewrite Z.add_0_r in Hchar. apply Hchar in Hp. congruence.
    + intros k y Hy. rewrite (Hchar (S k) y Hy).
      by replace (off + Z.of_nat (S k)) with (off + 1 + Z.of_nat k) by lia.
  - rewrite filter_cons_True by done.
    assert (off ∈ P) as Hin.
    { specialize (Hchar 0%nat x eq_refl). rewrite Z.add_0_r in Hchar.
      by apply Hchar. }
    apply elem_of_Permutation in Hin as [P' HP'].
    rewrite HP' in Hnd, Hrange |- *.
    apply NoDup_cons in Hnd as [Hoff Hnd].
    apply Forall_cons in Hrange as [_ Hrange].
    simpl. f_equal. apply (IH (off + 1)); [done| |].
    + rewrite Forall_forall in Hrange |- *. intros p Hp.
      specialize (Hrange p Hp). simpl in Hrange.
      assert (p ≠ off); [congruence|lia].
    + intros k y Hy. rewrite (Hchar (S k) y Hy), HP', elem_of_cons.
      replace (off + Z.of_nat (S k)) with (off + 1 + Z.of_nat k) by lia.
      split; [intros [?|?]; [lia|done]|by right].
Qed.

(** ** Field arithmetic on vectors *)

Lemma add_sub_cancel {F : Field} (x y : F) : sub (add x y) x = y.
Proof.
  unfold sub. rewrite (add_comm F x y), <- add_assoc, add_neg_r.
  apply add_zero_r.
Qed.

Lemma vector_add_sub {F : Field} (v e : list F) :
  length v = length e → vector_sub (zip_with add v e) v = e.
Proof.
  revert e. induction v as [|x v IH]; intros [|y e] Hlen; try done.
  unfold vector_sub in *. simpl in *. rewrite add_sub_cancel.
  f_equal. apply IH. lia.
Qed.

(** ** Resolving counts *)

Lemma tuple_to_integer_sim {F} (c : count) (w : world F) :
  proper c →
  ∃ e m, _tuple_to_integer c w = (Ok e, skip_entropy m w) ∧
         resolves c e ∧ 0 ≤ e ≤ upper_bound c.
Proof.
  destruct c as [v|lo hi]; simpl; intros Hc.
  - exists v, 0%nat. rewrite skip_entropy_0. repeat split; try done; lia.
  - exists (lo + entropy w 0%nat mod (hi - lo + 1)), 1%nat.
    unfold randint. destruct (lo <=? hi) eqn:E; [|apply Z.leb_gt in E; lia].
    rewrite bind_next_word.
    pose proof (Z.mod_pos_bound (entropy w 0%nat) (hi - lo + 1)) as Hb.
    repeat split; try done; lia.
Qed.

(** ** The static channel *)

Lemma transmit_in_space `{AbstractChannel F C Out} fuel (self : C) message v
    (w : world F) :
  heap w !! message = Some v →
  Z.of_nat (length v) = dimension (input_space self) →
  transmit fuel self message w = transmit_unsafe fuel self message w.
Proof.
  intros Hv Hlen. unfold transmit.
  erewrite bind_ok.
  2:{ unfold space_contains. rewrite Hv.
      by rewrite bool_decide_eq_true_2. }
  done.
Qed.

Lemma vector_add_sim {F : Field} message (v e : list F) (w : world F) :
  heap w !! message = Some v → length v = length e →
  vector_add message e w
  = (Ok (fresh (dom (heap w))),
     World (uniform w) (entropy w)
       (<[fresh (dom (heap w)):=zip_with add v e]> (heap w))).
Proof.
  intros Hv Hlen. unfold vector_add.
  erewrite bind_ok by (unfold load; by rewrite Hv).
  by rewrite bool_decide_eq_true_2.
Qed.

Lemma static_transmit_unsafe_sim {F : Field} (self : StaticErrorRateChannel.t F)
    message v (w : world F) :
  let n := dimension (StaticErrorRateChannel._input_space self) in
  proper (StaticErrorRateChannel.number_errors self) →
  upper_bound (StaticErrorRateChannel.number_errors self) ≤ n →
  heap w !! message = Some v → Z.of_nat (length v) = n →
  unit_tape (uniform w) → fair F (entropy w) →
  ∃ fuel0 e error_vector w',
    resolves (StaticErrorRateChannel.number_errors self) e ∧
    hamming_weight error_vector = e ∧
    length error_vector = length v ∧
    heap w' = <[fresh (dom (heap w)):=zip_with add v error_vector]> (heap w) ∧
    ∀ fuel, (fuel0 ≤ fuel)%nat →
      StaticErrorRateChannel.transmit_unsafe fuel self message w
      = (Ok (fresh (dom (heap w))), w').
Proof.
  intros n Hc Hup Hv Hlen Hu Hfair.
  destruct (tuple_to_integer_sim (StaticErrorRateChannel.number_errors self) w)
    as (e & m0 & Hrun0 & He & Hebound); [done|].
  destruct (sampler_sim n e (skip_entropy m0 w))
    as (l & m1 & Hrun1 & Hl & Hsort & Hrange & _ & _ & _); [lia|done|].
  destruct (random_error_vector_sim F n l (skip_uniform m1 (skip_entropy m0 w)))
    as (fuel0 & m2 & vect & Hrun2 & Hvlen & Hvect);
    [done|by apply fair_shift|].
  set (w2 := skip_entropy m2 (skip_uniform m1 (skip_entropy m0 w))) in *.
  exists fuel0, e, vect,
    (World (uniform w2) (entropy w2)
       (<[fresh (dom (heap w2)):=zip_with add v vect]> (heap w2))).
  split; [done|]. split; [|split; [lia|split; [done|]]].
  - unfold hamming_weight. rewrite <- Hl. f_equal.
    apply (weight_count vect 0 l).
    + by apply StronglySorted_lt_NoDup.
    + eapply Forall_impl; [exact Hrange|]. simpl. lia.
    + intros k x Hx. rewrite Z.add_0_l.
      destruct (Hvect (Z.of_nat k)) as (y & Hy & Hin & Hout).
      { apply lookup_lt_Some in Hx. lia. }
      rewrite Nat2Z.id in Hy. assert (y = x) as -> by congruence.
      split; [|done]. intros Hnz.
      destruct (decide (Z.of_nat k ∈ l)) as [|Hnot]; [done|].
      rewrite (Hout Hnot), is_zero_zero in Hnz. done.
  - intros fuel Hfuel. unfold StaticErrorRateChannel.transmit_unsafe.
    erewrite bind_ok by exact Hrun0.
    erewrite bind_ok by exact Hrun1.
    erewrite bind_ok by (by apply Hrun2).
    apply (vector_add_sim message v vect w2); [done|lia].
Qed.

(** ** Drawing and splitting the positions *)

Lemma subscript_all_ok {F} (l : list Z) idx (w : world F) :
  Forall (λ i, 0 ≤ i < Z.of_nat (length l)) idx →
  subscript_all l idx w = (Ok ((λ i, l !!! Z.to_nat i) <$> idx), w).
Proof.
  induction 1 as [|i idx Hi _ IH]; [done|]. simpl.
  erewrite bind_ok.
  2:{ apply getitem_ok; [lia|].
      apply list_lookup_lookup_total_lt. lia. }
  erewrite bind_ok by exact IH. done.
Qed.

Lemma fmap_seqZ_lookup_total (l : list Z) :
  (λ i, l !!! Z.to_nat i) <$> seqZ 0 (Z.of_nat (length l)) = l.
Proof.
  apply list_eq. intros i. rewrite list_lookup_fmap.
  destruct (decide (i < length l)%nat) as [Hi|Hi].
  - rewrite lookup_seqZ_lt, Z.add_0_l by lia.
    rewrite (list_lookup_lookup_total_lt l i) by done.
    simpl. by rewrite Nat2Z.id.
  - rewrite lookup_seqZ_ge by lia. simpl. symmetry.
    apply lookup_ge_None. lia.
Qed.

Lemma split_lengths (m e : Z) (error_split : list Z) :
  0 ≤ m → NoDup error_split → Forall (λ x, 0 ≤ x < m) error_split →
  Z.of_nat (length error_split) = e →
  Z.of_nat (length (filter (λ i, i ∈ error_split) (seqZ 0 m))) = e ∧
  Z.of_nat (length (filter (λ i, i ∉ error_split) (seqZ 0 m))) = m - e.
Proof.
  intros Hm Hnd Hrange He.
  assert (filter (λ i, i ∈ error_split) (seqZ 0 m) ≡ₚ error_split) as HE.
  { apply NoDup_Permutation; [apply NoDup_filter, NoDup_seqZ|done|].
    intros x. rewrite list_elem_of_filter, elem_of_seqZ.
    rewrite Forall_forall in Hrange. split; [by intros [? _]|].
    intros Hx. specialize (Hrange x Hx). simpl in Hrange. split; [done|lia]. }
  pose proof (filter_app_complement (λ i, i ∈ error_split) (seqZ 0 m)) as HC.
  apply Permutation_length in HC.
  rewrite length_app, length_seqZ in HC.
  apply Permutation_length in HE. lia.
Qed.

Lemma draw_positions_sim {F : Field} (self : ErrorErasureChannel.t F)
    (w : world F) :
  let n := dimension (ErrorErasureChannel._input_space self) in
  proper (ErrorErasureChannel.number_errors self) →
  proper (ErrorErasureChannel.number_erasures self) →
  upper_bound (ErrorErasureChannel.number_errors self)
    + upper_bound (ErrorErasureChannel.number_erasures self) ≤ n →
  unit_tape (uniform w) →
  ∃ e r error_positions erasure_positions m1 m2,
    resolves (ErrorErasureChannel.number_errors self) e ∧
    resolves (ErrorErasureChannel.number_erasures self) r ∧
    ErrorErasureChannel.draw_positions self w
    = (Ok (error_positions, erasure_positions),
       skip_uniform m1 (skip_entropy m2 w)) ∧
    Z.of_nat (length error_positions) = e ∧
    Z.of_nat (length erasure_positions) = r ∧
    NoDup (error_positions ++ erasure_positions) ∧
    Forall (λ x, 0 ≤ x < n) (error_positions ++ erasure_positions).
Proof.
  intros n Hce Hcr Hup Hu.
  destruct (tuple_to_integer_sim (ErrorErasureChannel.number_errors self) w)
    as (e & a & Hrun0 & He & Heb); [done|].
  destruct (tuple_to_integer_sim (ErrorErasureChannel.number_erasures self)
              (skip_entropy a w))
    as (r & b & Hrun1 & Hr & Hrb); [done|].
  rewrite skip_entropy_skip in Hrun1.
  destruct (sampler_sim n (e + r) (skip_entropy (a + b) w))
    as (ep & c & Hrun2 & Hlen2 & Hsort2 & Hrange2 & _ & _ & _); [lia|done|].
  destruct (sampler_sim (e + r) e (skip_uniform c (skip_entropy (a + b) w)))
    as (sp & d & Hrun3 & Hlen3 & Hsort3 & Hrange3 & _ & _ & _);
    [lia|by apply unit_tape_shift|].
  rewrite skip_uniform_skip in Hrun3.
  destruct (split_lengths (e + r) e sp) as [HlenE HlenR];
    [lia|by apply StronglySorted_lt_NoDup|done|done|].
  set (lps := λ i : Z, ep !!! Z.to_nat i).
  set (idxE := filter (λ i, i ∈ sp) (seqZ 0 (e + r))) in *.
  set (idxR := filter (λ i, i ∉ sp) (seqZ 0 (e + r))) in *.
  assert (∀ P `{∀ x, Decision (P x)},
            Forall (λ i, 0 ≤ i < Z.of_nat (length ep))
              (filter P (seqZ 0 (e + r)))) as Hidx.
  { intros P HP. apply Forall_forall. intros x.
    rewrite list_elem_of_filter, elem_of_seqZ. lia. }
  assert (lps <$> idxE ++ idxR ≡ₚ ep) as Hperm.
  { rewrite <- (fmap_seqZ_lookup_total ep), Hlen2. apply fmap_Permutation.
    apply filter_app_complement. }
  exists e, r, (lps <$> idxE), (lps <$> idxR), (c + d)%nat, (a + b)%nat.
  split; [done|]. split; [done|]. split.
  { unfold ErrorErasureChannel.draw_positions.
    erewrite bind_ok by exact Hrun0.
    erewrite bind_ok by exact Hrun1.
    erewrite bind_ok by exact Hrun2.
    erewrite bind_ok by exact Hrun3.
    erewrite bind_ok by (apply subscript_all_ok, Hidx).
    erewrite bind_ok by (apply subscript_all_ok, Hidx).
    done. }
  rewrite !length_fmap, <- fmap_app, Hperm.
  split; [done|]. split; [lia|]. split; [|done].
  by apply StronglySorted_lt_NoDup.
Qed.

(** ** Erasing *)

Lemma erase_all_length {F : Field} eras (u : list F) :
  length (erase_all eras u) = length u.
Proof.
  revert u. induction eras as [|p eras IH]; intros u; [done|].
  simpl. by rewrite IH, length_insert.
Qed.

Lemma erase_all_notin {F : Field} eras (u : list F) k :
  Forall (λ i, 0 ≤ i) eras → Z.of_nat k ∉ eras →
  erase_all eras u !! k = u !! k.
Proof.
  revert u. induction eras as [|p eras IH]; intros u Hpos Hk; [done|].
  apply Forall_cons in Hpos as [Hp Hpos].
  apply not_elem_of_cons in Hk as [Hne Hk]. simpl.
  rewrite IH by done. apply list_lookup_insert_ne. lia.
Qed.

Lemma erase_all_in {F : Field} eras (u : list F) i :
  Forall (λ i, 0 ≤ i < Z.of_nat (length u)) eras → i ∈ eras →
  erase_all eras u !! Z.to_nat i = Some zero.
Proof.
  revert u. induction eras as [|p eras IH]; intros u Hpos Hi.
  { by apply elem_of_nil in Hi. }
  apply Forall_cons in Hpos as [Hp Hpos]. simpl.
  destruct (decide (i ∈ eras)) as [Hin|Hnot].
  - apply IH; [|done]. by rewrite length_insert.
  - apply elem_of_cons in Hi as [->|?]; [|done].
    rewrite erase_all_notin.
    + apply list_lookup_insert_eq. lia.
    + eapply Forall_impl; [exact Hpos|]. simpl. lia.
    + by rewrite Z2Nat.id by lia.
Qed.

Lemma for_erasure_positions_sim {F : Field} message eras (u : list F)
    (w : world F) :
  heap w !! message = Some u →
  Forall (λ i, 0 ≤ i < Z.of_nat (length u)) eras →
  ErrorErasureChannel.for_erasure_positions message eras w
  = (Ok (), World (uniform w) (entropy w)
              (<[message:=erase_all eras u]> (heap w))).
Proof.
  revert u w. induction eras as [|p eras IH]; intros u w Hu Hpos.
  { simpl. rewrite insert_id by done. by destruct w. }
  apply Forall_cons in Hpos as [Hp Hpos]. simpl.
  erewrite bind_ok.
  2:{ unfold vector_setitem.
      erewrite bind_ok by (unfold load; by rewrite Hu).
      erewrite bind_ok by (by apply setitem_ok). done. }
  unfold store. erewrite IH.
  - simpl. by rewrite insert_insert_eq.
  - simpl. apply lookup_insert_eq.
  - by rewrite length_insert.
Qed.

(** ** The error-and-erasure channel *)

Lemma corrupt_sim {F : Field} n message (v : list F) errs eras (w : world F) :
  heap w !! message = Some v → Z.of_nat (length v) = n →
  Forall (λ x, 0 ≤ x < n) errs → Forall (λ x, 0 ≤ x < n) eras →
  fair F (entropy w) → fair GF2 (entropy w) →
  ∃ fuel0 m (error_vector : list F) (indicator : list GF2),
    (∀ fuel, (fuel0 ≤ fuel)%nat →
       ErrorErasureChannel.corrupt fuel n message errs eras w
       = (Ok (fresh (dom (heap w)), indicator),
          World (uniform w) (shift m (entropy w))
            (<[fresh (dom (heap w)):=
                 erase_all eras (zip_with add v error_vector)]> (heap w)))) ∧
    length error_vector = length v ∧
    length indicator = length v ∧
    (∀ i, 0 ≤ i < n →
       ∃ y, error_vector !! Z.to_nat i = Some y ∧
            (i ∈ errs → is_zero y = false) ∧ (i ∉ errs → y = zero)) ∧
    (∀ i, 0 ≤ i < n →
       ∃ b, indicator !! Z.to_nat i = Some b ∧
            (i ∈ eras → b = true) ∧ (i ∉ eras → b = false)).
Proof.
  intros Hv Hlen Herrs Heras HfairF Hfair2.
  destruct (random_error_vector_sim F n errs w)
    as (fuel1 & m1 & ev & Hrun1 & Hlen1 & Hev); [done|done|].
  destruct (random_error_vector_sim GF2 n eras (skip_entropy m1 w))
    as (fuel2 & m2 & ind & Hrun2 & Hlen2 & Hind);
    [done|by apply fair_shift|].
  rewrite skip_entropy_skip in Hrun2.
  exists (max fuel1 fuel2)%nat, (m1 + m2)%nat, ev, ind.
  split; [|split; [lia|split; [lia|split; [done|]]]].
  - intros fuel Hfuel. unfold ErrorErasureChannel.corrupt.
    erewrite bind_ok by (apply Hrun1; lia).
    erewrite bind_ok by (apply Hrun2; lia).
    erewrite bind_ok by (apply (vector_add_sim message v ev); [done|lia]).
    erewrite bind_ok.
    2:{ apply (for_erasure_positions_sim _ eras (zip_with add v ev)).
        - simpl. apply lookup_insert_eq.
        - rewrite length_zip_with.
          eapply Forall_impl; [exact Heras|]. simpl. lia. }
    simpl. by rewrite insert_insert_eq.
  - intros i Hi. destruct (Hind i Hi) as (b & Hb & Hin & Hout).
    exists b. split; [done|]. split; [|done].
    intros Hi'. specialize (Hin Hi'). by destruct b.
Qed.

Lemma error_erasure_sim {F : Field} (self : ErrorErasureChannel.t F) message
    (v : list F) (w : world F) :
  let n := dimension (ErrorErasureChannel._input_space self) in
  proper (ErrorErasureChannel.number_errors self) →
  proper (ErrorErasureChannel.number_erasures self) →
  upper_bound (ErrorErasureChannel.number_errors self)
    + upper_bound (ErrorErasureChannel.number_erasures self) ≤ n →
  heap w !! message = Some v → Z.of_nat (length v) = n →
  unit_tape (uniform w) → fair F (entropy w) → fair GF2 (entropy w) →
  ∃ fuel0 e r errs eras w1 w' (v' : list F) (indicator : list GF2),
    resolves (ErrorErasureChannel.number_errors self) e ∧
    resolves (ErrorErasureChannel.number_erasures self) r ∧
    ErrorErasureChannel.draw_positions self w = (Ok (errs, eras), w1) ∧
    Z.of_nat (length errs) = e ∧ Z.of_nat (length eras) = r ∧
    NoDup (errs ++ eras) ∧ Forall (λ x, 0 ≤ x < n) (errs ++ eras) ∧
    (∀ fuel, (fuel0 ≤ fuel)%nat →
       ErrorErasureChannel.transmit_unsafe fuel self message w
       = (Ok (fresh (dom (heap w)), indicator), w')) ∧
    heap w' = <[fresh (dom (heap w)):=v']> (heap w) ∧
    length v' = length v ∧ length indicator = length v ∧
    ∀ i, 0 ≤ i < n →
      ∃ x x' b,
        v !! Z.to_nat i = Some x ∧ v' !! Z.to_nat i = Some x' ∧
        indicator !! Z.to_nat i = Some b ∧
        (i ∈ eras → x' = zero ∧ b = true) ∧
        (i ∉ eras → b = false) ∧
        (i ∈ errs → is_zero (sub x' x) = false) ∧
        (i ∉ errs → i ∉ eras → x' = x).
Proof.
  intros n Hce Hcr Hup Hv Hlen Hu HfairF Hfair2.
  destruct (draw_positions_sim self w)
    as (e & r & errs & eras & m1 & m2 & He & Hr & Hdraw & HlenE & HlenR
        & Hnd & Hrange); [done..|].
  fold n in Hrange. pose proof Hrange as Hrange'.
  apply Forall_app in Hrange' as [HrE HrR].
  set (w1 := skip_uniform m1 (skip_entropy m2 w)) in *.
  destruct (corrupt_sim n message v errs eras w1)
    as (fuel0 & m & ev & ind & Hrun & Hlenev & Hlenind & Hev & Hind);
    [done|done|done|done|by apply fair_shift|by apply fair_shift|].
  eexists fuel0, e, r, errs, eras, w1, _,
    (erase_all eras (zip_with add v ev)), ind.
  split; [done|]. split; [done|]. split; [done|]. split; [done|].
  split; [done|]. split; [done|]. split; [done|]. split.
  { intros fuel Hfuel. unfold ErrorErasureChannel.transmit_unsafe.
    erewrite bind_ok by exact Hdraw. simpl. by apply Hrun. }
  split; [done|].
  split; [by rewrite erase_all_length, length_zip_with_l_eq|].
  split; [done|].
  intros i Hi.
  destruct (lookup_lt_is_Some_2 v (Z.to_nat i)) as [x Hx]; [lia|].
  destruct (Hev i Hi) as (y & Hy & HyE & HyN).
  destruct (Hind i Hi) as (b & Hb & HbE & HbN).
  assert (zip_with add v ev !! Z.to_nat i = Some (add x y)) as Hsum
    by (by rewrite lookup_zip_with, Hx, Hy).
  destruct (decide (i ∈ eras)) as [Hin|Hnot].
  - exists x, zero, b. split; [done|]. split.
    { apply erase_all_in; [|done]. rewrite length_zip_with_l_eq by done.
      eapply Forall_impl; [exact HrR|]. simpl. lia. }
    split; [done|]. split; [auto|]. split; [done|]. split; [|done].
    intros HinE. exfalso. apply NoDup_app in Hnd as (_ & Hdisj & _).
    by apply (Hdisj i).
  - exists x, (add x y), b. split; [done|]. split.
    { rewrite erase_all_notin; [done| |by rewrite Z2Nat.id by lia].
      eapply Forall_impl; [exact HrR|]. simpl. lia. }
    split; [done|]. split; [done|]. split; [done|]. split.
    + intros HinE. rewrite add_sub_cancel. auto.
    + intros HnE _. rewrite (HyN HnE). apply add_zero_r.
Qed.

(** ** Framing: which objects of the store a computation may touch *)

Create HintDb frames discriminated.

Lemma frames_bind {F A B} D (m : Sim F A) (f : A → Sim F B) Q R :
  frames D m Q → (∀ a, Q a → frames D (f a) R) → frames D (m ≫= f) R.
Proof.
  intros Hm Hf w HD. destruct (Hm w HD) as [Hfr HQ].
  unfold mbind, sim_bind. destruct (m w) as [[a|e|] w1]; simpl in *; try done.
  assert (D ⊆ dom (heap w1)) as HD1.
  { intros l Hl. apply elem_of_dom. rewrite Hfr by done.
    apply elem_of_dom. by apply HD. }
  destruct (Hf a HQ w1 HD1) as [Hfr2 HR]. split; [|done].
  intros l Hl. by rewrite Hfr2, Hfr.
Qed.

Lemma frames_stable {F A} D (m : Sim F A) :
  (∀ w, heap (m w).2 = heap w) → frames D m (λ _, True).
Proof.
  intros Hm w _. split; [intros l _; by rewrite Hm|by destruct (m w).1].
Qed.

Lemma frames_ret {F A} D (a : A) : frames (F:=F) D (mret a) (λ _, True).
Proof. by apply frames_stable. Qed.

Lemma frames_raise {F A} D e : frames (F:=F) (A:=A) D (raise e) (λ _, True).
Proof. by apply frames_stable. Qed.

Lemma frames_out_of_fuel {F A} D :
  frames (F:=F) (A:=A) D out_of_fuel (λ _, True).
Proof. by apply frames_stable. Qed.

Lemma frames_random_lt {F} D r : frames (F:=F) D (random_lt r) (λ _, True).
Proof. by apply frames_stable. Qed.

Lemma frames_next_word {F} D : frames (F:=F) D next_word (λ _, True).
Proof. by apply frames_stable. Qed.

Lemma frames_getitem {F A} D (l : list A) i :
  frames (F:=F) D (getitem l i) (λ _, True).
Proof.
  apply frames_stable. intros w. unfold getitem. by destruct (_ ≫= _).
Qed.

Lemma frames_setitem {F A} D (l : list A) i x :
  frames (F:=F) D (setitem l i x) (λ _, True).
Proof.
  apply frames_stable. intros w. unfold setitem. by destruct (py_index _ _).
Qed.

Lemma frames_load {F : Field} D l : frames (F:=F) D (load l) (λ _, True).
Proof. apply frames_stable. intros w. unfold load. by destruct (_ !! _). Qed.

Lemma frames_space_contains {F : Field} D (V : VectorSpace F) l :
  frames D (space_contains V l) (λ _, True).
Proof.
  apply frames_stable. intros w. unfold space_contains. by destruct (_ !! _).
Qed.

Global Hint Resolve frames_ret frames_raise frames_out_of_fuel frames_random_lt
  frames_next_word frames_getitem frames_setitem frames_load
  frames_space_contains : frames.

(** Sequencing steps that do not constrain their result. *)
Ltac frames_seq :=
  repeat (eapply frames_bind; [solve [eauto with frames]|intros ? _]);
  eauto with frames.

Lemma frames_while_loop {F} D fuel n i k acc :
  frames (F:=F) D (while_loop fuel n i k acc) (λ _, True).
Proof.
  revert i k acc. induction fuel as [|fuel IH]; intros i k acc.
  { apply frames_ret. }
  rewrite while_loop_S. destruct (_ && _); [|apply frames_ret].
  eapply frames_bind; [apply frames_random_lt|]. by intros [] _.
Qed.

Lemma frames_random_error_position {F} D n k :
  frames (F:=F) D (_random_error_position n k) (λ _, True).
Proof. apply frames_while_loop. Qed.

Lemma frames_while_is_zero {F} D fuel (K : Field) (vect : list K) i :
  frames (F:=F) D (while_is_zero fuel K vect i) (λ _, True).
Proof.
  revert vect. induction fuel as [|fuel IH]; intros vect; simpl.
  { apply frames_out_of_fuel. }
  eapply frames_bind; [apply frames_getitem|]. intros x _.
  destruct (is_zero x); frames_seq.
Qed.

Lemma frames_for_error_positions {F} D fuel (K : Field) (vect : list K) ps :
  frames (F:=F) D (for_error_positions fuel K vect ps) (λ _, True).
Proof.
  revert vect. induction ps as [|p ps IH]; intros vect; simpl.
  { apply frames_ret. }
  eapply frames_bind; [apply frames_while_is_zero|]. by intros.
Qed.

Lemma frames_random_error_vector {F} D fuel n (K : Field) ps :
  frames (F:=F) D (_random_error_vector fuel n K ps) (λ _, True).
Proof. apply frames_for_error_positions. Qed.

Lemma frames_tuple_to_integer {F} D c :
  frames (F:=F) D (_tuple_to_integer c) (λ _, True).
Proof.
  destruct c as [v|lo hi]; simpl; [apply frames_ret|].
  unfold randint. destruct (lo <=? hi); frames_seq.
Qed.

Lemma frames_subscript_all {F A} D (l : list A) idx :
  frames (F:=F) D (subscript_all l idx) (λ _, True).
Proof. induction idx as [|i idx IH]; simpl; frames_seq. Qed.

Global Hint Resolve frames_random_error_position frames_random_error_vector
  frames_tuple_to_integer frames_subscript_all : frames.

(** A new object is none of the old ones. *)
Lemma frames_alloc {F : Field} D (v : list F) :
  frames D (alloc v) (λ l, l ∉ D).
Proof.
  intros w HD. simpl.
  assert (fresh (dom (heap w)) ∉ D) as Hfresh.
  { intros Hin. apply (is_fresh (dom (heap w))). by apply HD. }
  split; [|done]. intros l Hl. apply lookup_insert_ne. congruence.
Qed.

Lemma frames_store {F : Field} D l (v : list F) :
  l ∉ D → frames D (store l v) (λ _, True).
Proof.
  intros Hl w _. simpl. split; [|done].
  intros l' Hl'. apply lookup_insert_ne. congruence.
Qed.

Lemma frames_vector_add {F : Field} D message (e : list F) :
  frames D (vector_add message e) (λ l, l ∉ D).
Proof.
  unfold vector_add. eapply frames_bind; [apply frames_load|].
  intros v _. destruct (bool_decide _); [apply frames_alloc|].
  intros w _. by split.
Qed.

Lemma frames_vector_setitem {F : Field} D message i (x : F) :
  message ∉ D → frames D (vector_setitem message i x) (λ _, True).
Proof.
  intros Hl. unfold vector_setitem.
  eapply frames_bind; [apply frames_load|]. intros v _.
  eapply frames_bind; [apply frames_setitem|]. intros v' _.
  by apply frames_store.
Qed.

Lemma frames_for_erasure_positions {F : Field} D message eras :
  message ∉ D →
  frames (F:=F) D (ErrorErasureChannel.for_erasure_positions message eras)
    (λ _, True).
Proof.
  intros Hl. induction eras as [|p eras IH]; simpl; [apply frames_ret|].
  eapply frames_bind; [by apply frames_vector_setitem|]. by intros.
Qed.

Lemma frames_static_transmit_unsafe {F : Field} D fuel
    (self : StaticErrorRateChannel.t F) message :
  frames D (StaticErrorRateChannel.transmit_unsafe fuel self message)
    (λ out, out ∉ D).
Proof.
  unfold StaticErrorRateChannel.transmit_unsafe.
  do 3 (eapply frames_bind; [solve [eauto with frames]|intros ? _]).
  apply frames_vector_add.
Qed.

Lemma frames_error_erasure_transmit_unsafe {F : Field} D fuel
    (self : ErrorErasureChannel.t F) message :
  frames D (ErrorErasureChannel.transmit_unsafe fuel self message)
    (λ out, out.1 ∉ D).
Proof.
  unfold ErrorErasureChannel.transmit_unsafe.
  eapply frames_bind with (Q := λ _, True).
  { unfold ErrorErasureChannel.draw_positions. frames_seq. }
  intros [errs eras] _. unfold ErrorErasureChannel.corrupt.
  do 2 (eapply frames_bind; [solve [eauto with frames]|intros ? _]).
  eapply frames_bind; [apply frames_vector_add|]. intros out Hout.
  eapply frames_bind; [by apply frames_for_erasure_positions|]. intros _ _.
  intros w _. by split.
Qed.

(** ** Constructors *)

Lemma static_init_ok {F : Field} (V : VectorSpace F) c self :
  StaticErrorRateChannel.__init__ V c = Ok self →
  self = StaticErrorRateChannel.Build V c ∧ upper_bound c ≤ dimension V.
Proof.
  unfold StaticErrorRateChannel.__init__. fold (upper_bound c).
  destruct (dimension V <? upper_bound c) eqn:E; [done|].
  apply Z.ltb_ge in E. intros [= <-]. done.
Qed.

Lemma error_erasure_init_ok {F : Field} (V : VectorSpace F) ce cr self :
  ErrorErasureChannel.__init__ V ce cr = Ok self →
  self = ErrorErasureChannel.Build V ce cr ∧
  upper_bound ce + upper_bound cr ≤ dimension V.
Proof.
  unfold ErrorErasureChannel.__init__.
  fold (upper_bound ce). fold (upper_bound cr).
  destruct (dimension V <? upper_bound ce + upper_bound cr) eqn:E; [done|].
  apply Z.ltb_ge in E. intros [= <-]. done.
Qed.

(** ** The concrete random source *)

Lemma demo_unit_tape : unit_tape (λ _, 1 # 2)%Q.
Proof. intros _. split; [by intros [=]|done]. Qed.

Lemma demo_fair_GF2 : fair GF2 (λ _, 1).
Proof. intros i. exists i. by split. Qed.

Lemma demo_fair_GF59 : fair GF59 (λ _, 1).
Proof. intros i. exists i. by split. Qed.

(** ** Sanity checks on the concrete scenarios *)

(** With every draw equal to 1/2, two positions out of five are the third
    and the fifth. *)
Example sample_two_of_five :
  (_random_error_position (M:=Sim GF2) 5 2 (demo_world msg1)).1 = Ok [2; 4].
Proof. reflexivity. Qed.

(** The example of the docstring of [_random_error_vector]. *)
Example error_vector_over_GF2 :
  (_random_error_vector 2 5 GF2 [1; 3] (demo_world msg1)).1
  = Ok [false; true; false; true; false].
Proof. reflexivity. Qed.

(** Two errors in the 6-dimensional message over [GF(59)]: the message is
    left as it was and a new vector is returned. *)
Example static_channel_on_msg6 :
  let self := StaticErrorRateChannel.Build V6 (Fixed 2) in
  let result := transmit 2 self 1%positive (demo_world msg6) in
  result.1 = Ok 2%positive ∧
  fmap (M:=list) proj1_sig <$> (heap result.2 !! 2%positive)
    = Some [4; 8; 15; 17; 23; 43] ∧
  heap result.2 !! 1%positive = Some msg6.
Proof. repeat split; reflexivity. Qed.

(** An unchecked transmission of a message of the wrong dimension fails in
    the addition, and [transmit] refuses it beforehand. *)
Example static_channel_wrong_dimension :
  let self := StaticErrorRateChannel.Build V6 (Fixed 2) in
  (transmit_unsafe 2 self 1%positive (demo_world msg11)).1 = Raise TypeError ∧
  (transmit 2 self 1%positive (demo_world msg11)).1 = Raise TypeError.
Proof. split; reflexivity. Qed.

(** * The properties *)

(** C1: for every [n] and [k] with [0 <= k <= n], whatever values in [0,1)
    the random source hands out, [_random_error_position(n, k)] returns a
    list of exactly [k] pairwise distinct positions, each in [[0, n)]. *)
Theorem random_error_position_exact {F : Field} (n k : Z) (w : world F) :
  0 ≤ k ≤ n → unit_tape (uniform w) →
  ∃ l w',
    _random_error_position (M:=Sim F) n k w = (Ok l, w') ∧
    Z.of_nat (length l) = k ∧ NoDup l ∧ Forall (λ x, 0 ≤ x < n) l.
Proof.
  intros Hk Hu.
  destruct (sampler_sim n k w)
    as (l & m & Hrun & Hlen & Hsort & Hrange & _); [done..|].
  exists l, (skip_uniform m w). repeat split; try done.
  by apply StronglySorted_lt_NoDup.
Qed.

Lemma random_error_position_exact_witness :
  0 ≤ 2 ≤ 6 ∧ unit_tape (uniform (demo_world msg6)) ∧
  ∃ l w',
    _random_error_position (M:=Sim GF59) 6 2 (demo_world msg6) = (Ok l, w') ∧
    Z.of_nat (length l) = 2 ∧ NoDup l ∧ Forall (λ x, 0 ≤ x < 6) l.
Proof.
  split; [lia|]. split; [exact demo_unit_tape|].
  apply (random_error_position_exact 6 2 (demo_world msg6));
    [lia|exact demo_unit_tape].
Defined.




(** C3: a [StaticErrorRateChannel] configured with a fixed count [e],
    [0 <= e <= n], turns every vector [v] of its input space into a vector
    whose difference with [v] has Hamming weight exactly [e] (the rejection
    loop ends as soon as the source yields a non-zero element, which a fair
    source does). *)
Theorem static_channel_weight {F : Field} (V : VectorSpace F) (e : Z)
    (self : StaticErrorRateChannel.t F) (message : loc) (v : list F)
    (w : world F) :
  0 ≤ e ≤ dimension V →
  StaticErrorRateChannel.__init__ V (Fixed e) = Ok self →
  heap w !! message = Some v → Z.of_nat (length v) = dimension V →
  unit_tape (uniform w) → fair F (entropy w) →
  ∃ fuel0, ∀ fuel, (fuel0 ≤ fuel)%nat →
    ∃ out w' v',
      transmit fuel self message w = (Ok out, w') ∧
      heap w' !! out = Some v' ∧
      hamming_weight (vector_sub v' v) = e.
Proof.
  intros He Hinit Hv Hlen Hu Hfair.
  apply static_init_ok in Hinit as [-> Hup].
  destruct (static_transmit_unsafe_sim
              (StaticErrorRateChannel.Build V (Fixed e)) message v w)
    as (fuel0 & e' & ev & w' & Hres & Hweight & Hlenev & Hheap & Hrun);
    [simpl; lia|done|done|done|done|done|].
  simpl in Hres. subst e'.
  exists fuel0. intros fuel Hfuel.
  exists (fresh (dom (heap w))), w', (zip_with add v ev).
  split; [|split].
  - erewrite transmit_in_space by done. by apply Hrun.
  - rewrite Hheap. apply lookup_insert_eq.
  - by rewrite vector_add_sub.
Qed.

Lemma static_channel_weight_witness :
  0 ≤ 2 ≤ dimension V6 ∧
  StaticErrorRateChannel.__init__ V6 (Fixed 2)
    = Ok (StaticErrorRateChannel.Build V6 (Fixed 2)) ∧
  heap (demo_world msg6) !! 1%positive = Some msg6 ∧
  Z.of_nat (length msg6) = dimension V6 ∧
  unit_tape (uniform (demo_world msg6)) ∧
  fair GF59 (entropy (demo_world msg6)) ∧
  ∃ fuel0, ∀ fuel, (fuel0 ≤ fuel)%nat →
    ∃ out w' v',
      transmit fuel (StaticErrorRateChannel.Build V6 (Fixed 2)) 1%positive
        (demo_world msg6) = (Ok out, w') ∧
      heap w' !! out = Some v' ∧
      hamming_weight (vector_sub v' msg6) = 2.
Proof.
  assert (0 ≤ 2 ≤ dimension V6) as H1 by (simpl; lia).
  assert (heap (demo_world msg6) !! 1%positive = Some msg6) as H3
    by apply lookup_singleton_eq.
  repeat (split; [first [exact H1|exact H3|exact demo_unit_tape
                         |exact demo_fair_GF59|reflexivity]|]).
  apply (static_channel_weight V6 2 _ 1%positive msg6 (demo_world msg6));
    [exact H1|reflexivity|exact H3|reflexivity|exact demo_unit_tape
    |exact demo_fair_GF59].
Defined.




(** C5: in every transmission of an [ErrorErasureChannel] the received
    vector holds the zero of the field at every erased position, the received
    vector and the indicator both have the dimension [n] of the space, and
    the indicator is 1 at position [i] if and only if position [i] was
    erased. *)
Theorem error_erasure_erased_positions {F : Field} (V : VectorSpace F)
    (number_errors number_erasures : count)
    (self : ErrorErasureChannel.t F) (message : loc) (v : list F)
    (w : world F) :
  proper number_errors → proper number_erasures →
  ErrorErasureChannel.__init__ V number_errors number_erasures = Ok self →
  heap w !! message = Some v → Z.of_nat (length v) = dimension V →
  unit_tape (uniform w) → fair F (entropy w) → fair GF2 (entropy w) →
  ∃ fuel0 error_positions erasure_positions w1,
    ErrorErasureChannel.draw_positions self w
      = (Ok (error_positions, erasure_positions), w1) ∧
    ∀ fuel, (fuel0 ≤ fuel)%nat →
      ∃ out indicator w' v',
        transmit fuel self message w = (Ok (out, indicator), w') ∧
        heap w' !! out = Some v' ∧
        Z.of_nat (length v') = dimension V ∧
        Z.of_nat (length indicator) = dimension V ∧
        (∀ i, i ∈ erasure_positions → v' !! Z.to_nat i = Some zero) ∧
        (∀ i, erased indicator i ↔ Z.of_nat i ∈ erasure_positions).
Proof.
  intros Hce Hcr Hinit Hv Hlen Hu HfairF Hfair2.
  apply error_erasure_init_ok in Hinit as [-> Hup].
  destruct (error_erasure_sim
              (ErrorErasureChannel.Build V number_errors number_erasures)
              message v w)
    as (fuel0 & e & r & errs & eras & w1 & w' & v' & ind & _ & _
        & Hdraw & _ & _ & _ & Hrange & Hrun & Hheap & Hlenv'
        & Hlenind & Hpos); [done..|].
  simpl in Hrange, Hpos. apply Forall_app in Hrange as [_ HrR].
  rewrite Forall_forall in HrR.
  exists fuel0, errs, eras, w1. split; [done|].
  intros fuel Hfuel. exists (fresh (dom (heap w))), ind, w', v'.
  split; [erewrite transmit_in_space by done; by apply Hrun|].
  split; [rewrite Hheap; apply lookup_insert_eq|].
  split; [lia|]. split; [lia|]. split.
  - intros i Hi.
    destruct (Hpos i (HrR i Hi)) as (x & x' & b & _ & Hx' & _ & Hin & _).
    by destruct (Hin Hi) as [-> _].
  - intros i. unfold erased. change (carrier GF2) with bool in *. split.
    + intros Hi.
      destruct (Hpos (Z.of_nat i)) as (x & x' & b & _ & _ & Hb & _ & Hout & _).
      { apply lookup_lt_Some in Hi. lia. }
      rewrite Nat2Z.id in Hb.
      destruct (decide (Z.of_nat i ∈ eras)) as [|Hnot]; [done|].
      specialize (Hout Hnot). congruence.
    + intros Hi.
      destruct (Hpos (Z.of_nat i) (HrR _ Hi))
        as (x & x' & b & _ & _ & Hb & Hin & _).
      rewrite Nat2Z.id in Hb. by destruct (Hin Hi) as [_ ->].
Qed.

Lemma error_erasure_erased_positions_witness :
  proper (Range 1 2) ∧ proper (Fixed 2) ∧
  ErrorErasureChannel.__init__ V11 (Range 1 2) (Fixed 2)
    = Ok (ErrorErasureChannel.Build V11 (Range 1 2) (Fixed 2)) ∧
  heap (demo_world msg11) !! 1%positive = Some msg11 ∧
  Z.of_nat (length msg11) = dimension V11 ∧
  unit_tape (uniform (demo_world msg11)) ∧
  fair GF59 (entropy (demo_world msg11)) ∧
  fair GF2 (entropy (demo_world msg11)) ∧
  ∃ fuel0 error_positions erasure_positions w1,
    ErrorErasureChannel.draw_positions
      (ErrorErasureChannel.Build V11 (Range 1 2) (Fixed 2))
      (demo_world msg11)
      = (Ok (error_positions, erasure_positions), w1) ∧
    ∀ fuel, (fuel0 ≤ fuel)%nat →
      ∃ out indicator w' v',
        transmit fuel (ErrorErasureChannel.Build V11 (Range 1 2) (Fixed 2))
          1%positive (demo_world msg11) = (Ok (out, indicator), w') ∧
        heap w' !! out = Some v' ∧
        Z.of_nat (length v') = dimension V11 ∧
        Z.of_nat (length indicator) = dimension V11 ∧
        (∀ i, i ∈ erasure_positions → v' !! Z.to_nat i = Some zero) ∧
        (∀ i, erased indicator i ↔ Z.of_nat i ∈ erasure_positions).
Proof.
  assert (heap (demo_world msg11) !! 1%positive = Some msg11) as H4
    by apply lookup_singleton_eq.
  assert (proper (Range 1 2)) as H1 by (simpl; lia).
  assert (proper (Fixed 2)) as H2 by (simpl; lia).
  split; [exact H1|]. split; [exact H2|]. split; [reflexivity|].
  split; [exact H4|]. split; [reflexivity|]. split; [exact demo_unit_tape|].
  split; [exact demo_fair_GF59|]. split; [exact demo_fair_GF2|].
  apply (error_erasure_erased_positions V11 (Range 1 2) (Fixed 2) _
           1%positive msg11 (demo_world msg11));
    [exact H1|exact H2|reflexivity|exact H4|reflexivity|exact demo_unit_tape
    |exact demo_fair_GF59|exact demo_fair_GF2].
Defined.

(** C6: for every [n], every field [K] whose generator keeps yielding
    non-zero elements (so [K] has at least two elements) and every list of
    positions within [[0, n)], [_random_error_vector(n, K, positions)]
    returns a vector of dimension [n] over [K] that is zero at every position
    outside the list and non-zero at every position of the list. *)
Theorem random_error_vector_support {F : Field} (K : Field) (n : Z)
    (error_positions : list Z) (w : world F) :
  0 ≤ n → NoDup error_positions →
  Forall (λ i, 0 ≤ i < n) error_positions →
  fair K (entropy w) →
  ∃ fuel0, ∀ fuel, (fuel0 ≤ fuel)%nat →
    ∃ vect w',
      _random_error_vector fuel n K error_positions w = (Ok vect, w') ∧
      Z.of_nat (length vect) = n ∧
      ∀ i, 0 ≤ i < n →
        ∃ y, vect !! Z.to_nat i = Some y ∧
             (i ∈ error_positions → y ≠ zero) ∧
             (i ∉ error_positions → y = zero).
Proof.
  intros Hn _ Hpos Hfair.
  destruct (random_error_vector_sim K n error_positions w)
    as (fuel0 & m & vect & Hrun & Hlen & Hvect); [done..|].
  exists fuel0. intros fuel Hfuel. exists vect, (skip_entropy m w).
  split; [by apply Hrun|]. split; [lia|].
  intros i Hi. destruct (Hvect i Hi) as (y & Hy & Hin & Hout).
  exists y. split; [done|]. split; [|done].
  intros Hi' ->. specialize (Hin Hi'). by rewrite is_zero_zero in Hin.
Qed.

Lemma random_error_vector_support_witness :
  0 ≤ 5 ∧ NoDup [1; 3] ∧ Forall (λ i, 0 ≤ i < 5) [1; 3] ∧
  fair GF2 (entropy (demo_world msg1)) ∧
  ∃ fuel0, ∀ fuel, (fuel0 ≤ fuel)%nat →
    ∃ (vect : list GF2) w',
      _random_error_vector fuel 5 GF2 [1; 3] (demo_world msg1)
        = (Ok vect, w') ∧
      Z.of_nat (length vect) = 5 ∧
      ∀ i, 0 ≤ i < 5 →
        ∃ y, vect !! Z.to_nat i = Some y ∧
             (i ∈ [1; 3] → y ≠ zero) ∧ (i ∉ [1; 3] → y = zero).
Proof.
  assert (NoDup [1; 3]) as H2 by (apply NoDup_ListNoDup; repeat constructor;
    simpl; intuition lia).
  assert (Forall (λ i, 0 ≤ i < 5) [1; 3]) as H3
    by (repeat constructor; lia).
  split; [lia|]. split; [exact H2|]. split; [exact H3|].
  split; [exact demo_fair_GF2|].
  apply (random_error_vector_support GF2 5 [1; 3] (demo_world msg1));
    [lia|exact H2|exact H3|exact demo_fair_GF2].
Defined.

(** C7 (as amended): [_random_error_position] validates nothing and never
    fails: it always returns a list; called with [k < 0] it returns the empty
    list, and called with [k > n] it returns all of [0, ..., n-1] (nothing
    when [n <= 0]). *)
Theorem random_error_position_no_validation {F : Field} (n k : Z)
    (w : world F) :
  unit_tape (uniform w) →
  (∃ l w', _random_error_position (M:=Sim F) n k w = (Ok l, w')) ∧
  (k < 0 → (_random_error_position (M:=Sim F) n k w).1 = Ok []) ∧
  (n < k → (_random_error_position (M:=Sim F) n k w).1 = Ok (range n)).
Proof.
  intros Hu. unfold _random_error_position. split; [|split].
  - destruct (while_loop_total (Z.to_nat n) n 0 k [] w) as (l & m & Hrun).
    by exists l, (skip_uniform m w).
  - intros Hk. by rewrite while_loop_no_demand by lia.
  - intros Hk.
    destruct (while_loop_overshoot (Z.to_nat n) n 0 k [] w) as (m & ->);
      [lia|lia|done|].
    simpl. unfold range. by rewrite Z.sub_0_r.
Qed.

Lemma random_error_position_no_validation_witness :
  unit_tape (uniform (demo_world msg1)) ∧
  (∃ l w',
     _random_error_position (M:=Sim GF2) 3 5 (demo_world msg1) = (Ok l, w')) ∧
  (5 < 0 →
   (_random_error_position (M:=Sim GF2) 3 5 (demo_world msg1)).1 = Ok []) ∧
  (3 < 5 →
   (_random_error_position (M:=Sim GF2) 3 5 (demo_world msg1)).1
   = Ok (range 3)).
Proof.
  split; [exact demo_unit_tape|].
  apply (random_error_position_no_validation 3 5 (demo_world msg1)).
  exact demo_unit_tape.
Defined.

(** C7 as stated fails: asked for 5 positions out of 3, and for -1 position
    out of 3, the sampler returns a list and raises nothing. *)
Lemma random_error_position_accepts_bad_counts :
  (_random_error_position (M:=Sim GF2) 3 5 (demo_world msg1)).1
    = Ok [0; 1; 2] ∧
  (_random_error_position (M:=Sim GF2) 3 (-1) (demo_world msg1)).1 = Ok [] ∧
  ¬ (∃ e, (_random_error_position (M:=Sim GF2) 3 5 (demo_world msg1)).1
          = Raise e) ∧
  ¬ (∃ e, (_random_error_position (M:=Sim GF2) 3 (-1) (demo_world msg1)).1
          = Raise e).
Proof.
  split; [reflexivity|]. split; [reflexivity|].
  split; intros [e He]; discriminate He.
Qed.

(** C8: construction fails with [ValueError] exactly when the configured
    counts are infeasible, and succeeds otherwise: for the static channel
    when the error count (its upper bound, for a range) exceeds the dimension
    of the space; for the error-and-erasure channel when the upper bounds of
    the two counts together exceed it. *)
Theorem init_rejects_exactly_infeasible_counts {F : Field}
    (V : VectorSpace F) (number_errors number_erasures : count) :
  (StaticErrorRateChannel.__init__ V number_errors = Raise ValueError
     ↔ dimension V < upper_bound number_errors) ∧
  (StaticErrorRateChannel.__init__ V number_errors
     = Ok (StaticErrorRateChannel.Build V number_errors)
     ↔ upper_bound number_errors ≤ dimension V) ∧
  (ErrorErasureChannel.__init__ V number_errors number_erasures
     = Raise ValueError
     ↔ dimension V < upper_bound number_errors + upper_bound number_erasures) ∧
  (ErrorErasureChannel.__init__ V number_errors number_erasures
     = Ok (ErrorErasureChannel.Build V number_errors number_erasures)
     ↔ upper_bound number_errors + upper_bound number_erasures ≤ dimension V).
Proof.
  unfold StaticErrorRateChannel.__init__, ErrorErasureChannel.__init__.
  fold (upper_bound number_errors). fold (upper_bound number_erasures).
  destruct (dimension V <? upper_bound number_errors) eqn:E1;
    destruct (dimension V <? _ + _) eqn:E2;
    try apply Z.ltb_lt in E1; try apply Z.ltb_ge in E1;
    try apply Z.ltb_lt in E2; try apply Z.ltb_ge in E2;
    repeat split; try done; try lia.
Qed.

(** C9: [transmit_unsafe] of either channel leaves its argument, and every
    other vector that existed before the call, unchanged, whatever the
    outcome of the call: the corruption, including the zeroing of the erased
    positions, is applied to a vector that did not exist before the call,
    which is the vector returned. *)
Theorem transmit_unsafe_leaves_store {F : Field} (fuel : nat) (message : loc)
    (w : world F) :
  (∀ self : StaticErrorRateChannel.t F,
     let result := StaticErrorRateChannel.transmit_unsafe fuel self message w in
     (∀ v, heap w !! message = Some v → heap result.2 !! message = Some v) ∧
     (∀ l, l ∈ dom (heap w) → heap result.2 !! l = heap w !! l) ∧
     (∀ out, result.1 = Ok out → out ∉ dom (heap w))) ∧
  (∀ self : ErrorErasureChannel.t F,
     let result := ErrorErasureChannel.transmit_unsafe fuel self message w in
     (∀ v, heap w !! message = Some v → heap result.2 !! message = Some v) ∧
     (∀ l, l ∈ dom (heap w) → heap result.2 !! l = heap w !! l) ∧
     (∀ out, result.1 = Ok out → out.1 ∉ dom (heap w))).
Proof.
  split; intros self result.
  - destruct (frames_static_transmit_unsafe (dom (heap w)) fuel self message w)
      as [Hframe Hout]; [done|].
    fold result in Hframe, Hout. split; [|split; [done|]].
    + intros v Hv. rewrite Hframe; [done|]. by apply elem_of_dom.
    + intros out Hres. by rewrite Hres in Hout.
  - destruct (frames_error_erasure_transmit_unsafe (dom (heap w)) fuel self
                message w) as [Hframe Hout]; [done|].
    fold result in Hframe, Hout. split; [|split; [done|]].
    + intros v Hv. rewrite Hframe; [done|]. by apply elem_of_dom.
    + intros out Hres. by rewrite Hres in Hout.
Qed.

(** C10: in every transmission of an [ErrorErasureChannel], at every
    position that is neither an error position nor an erasure position, that
    is outside the [e + r] positions drawn, the received vector equals the
    vector sent. *)
Theorem error_erasure_untouched_positions {F : Field} (V : VectorSpace F)
    (number_errors number_erasures : count)
    (self : ErrorErasureChannel.t F) (message : loc) (v : list F)
    (w : world F) :
  proper number_errors → proper number_erasures →
  ErrorErasureChannel.__init__ V number_errors number_erasures = Ok self →
  heap w !! message = Some v → Z.of_nat (length v) = dimension V →
  unit_tape (uniform w) → fair F (entropy w) → fair GF2 (entropy w) →
  ∃ fuel0 e r error_positions erasure_positions w1,
    resolves number_errors e ∧ resolves number_erasures r ∧
    ErrorErasureChannel.draw_positions self w
      = (Ok (error_positions, erasure_positions), w1) ∧
    Z.of_nat (length (error_positions ++ erasure_positions)) = e + r ∧
    NoDup (error_positions ++ erasure_positions) ∧
    ∀ fuel, (fuel0 ≤ fuel)%nat →
      ∃ out indicator w' v',
        transmit fuel self message w = (Ok (out, indicator), w') ∧
        heap w' !! out = Some v' ∧
        ∀ i, 0 ≤ i < dimension V →
          i ∉ error_positions → i ∉ erasure_positions →
          v' !! Z.to_nat i = v !! Z.to_nat i.
Proof.
  intros Hce Hcr Hinit Hv Hlen Hu HfairF Hfair2.
  apply error_erasure_init_ok in Hinit as [-> Hup].
  destruct (error_erasure_sim
              (ErrorErasureChannel.Build V number_errors number_erasures)
              message v w)
    as (fuel0 & e & r & errs & eras & w1 & w' & v' & ind & He & Hr
        & Hdraw & HlenE & HlenR & Hnd & _ & Hrun & Hheap & _ & _ & Hpos);
    [done..|].
  simpl in He, Hr, Hpos.
  exists fuel0, e, r, errs, eras, w1.
  split; [done|]. split; [done|]. split; [done|].
  split; [rewrite length_app; lia|]. split; [done|].
  intros fuel Hfuel. exists (fresh (dom (heap w))), ind, w', v'.
  split; [erewrite transmit_in_space by done; by apply Hrun|].
  split; [rewrite Hheap; apply lookup_insert_eq|].
  intros i Hi HnE HnR.
  destruct (Hpos i Hi) as (x & x' & b & Hx & Hx' & _ & _ & _ & _ & Hsame).
  by rewrite Hx, Hx', (Hsame HnE HnR).
Qed.

Lemma error_erasure_untouched_positions_witness :
  proper (Fixed 2) ∧ proper (Range 0 3) ∧
  ErrorErasureChannel.__init__ V11 (Fixed 2) (Range 0 3)
    = Ok (ErrorErasureChannel.Build V11 (Fixed 2) (Range 0 3)) ∧
  heap (demo_world msg11) !! 1%positive = Some msg11 ∧
  Z.of_nat (length msg11) = dimension V11 ∧
  unit_tape (uniform (demo_world msg11)) ∧
  fair GF59 (entropy (demo_world msg11)) ∧
  fair GF2 (entropy (demo_world msg11)) ∧
  ∃ fuel0 e r error_positions erasure_positions w1,
    resolves (Fixed 2) e ∧ resolves (Range 0 3) r ∧
    ErrorErasureChannel.draw_positions
      (ErrorErasureChannel.Build V11 (Fixed 2) (Range 0 3))
      (demo_world msg11)
      = (Ok (error_positions, erasure_positions), w1) ∧
    Z.of_nat (length (error_positions ++ erasure_positions)) = e + r ∧
    NoDup (error_positions ++ erasure_positions) ∧
    ∀ fuel, (fuel0 ≤ fuel)%nat →
      ∃ out indicator w' v',
        transmit fuel (ErrorErasureChannel.Build V11 (Fixed 2) (Range 0 3))
          1%positive (demo_world msg11) = (Ok (out, indicator), w') ∧
        heap w' !! out = Some v' ∧
        ∀ i, 0 ≤ i < dimension V11 →
          i ∉ error_positions → i ∉ erasure_positions →
          v' !! Z.to_nat i = msg11 !! Z.to_nat i.
Proof.
  assert (heap (demo_world msg11) !! 1%positive = Some msg11) as H4
    by apply lookup_singleton_eq.
  assert (proper (Fixed 2)) as H1 by (simpl; lia).
  assert (proper (Range 0 3)) as H2 by (simpl; lia).
  split; [exact H1|]. split; [exact H2|]. split; [reflexivity|].
  split; [exact H4|]. split; [reflexivity|]. split; [exact demo_unit_tape|].
  split; [exact demo_fair_GF59|]. split; [exact demo_fair_GF2|].
  apply (error_erasure_untouched_positions V11 (Fixed 2) (Range 0 3) _
           1%positive msg11 (demo_world msg11));
    [exact H1|exact H2|reflexivity|exact H4|reflexivity|exact demo_unit_tape
    |exact demo_fair_GF59|exact demo_fair_GF2].
Defined.

(** * Further properties of the code *)

(** ** The checked entry point *)

(** X2: [transmit] of any channel refuses a message that is not in the input
    space of the channel (here: a vector of another dimension) with a
    [TypeError], before anything is drawn from the random source and without
    touching the store. *)
Theorem transmit_rejects_outside_space `{AbstractChannel F C Out}
    (fuel : nat) (self : C) (message : loc) (v : list F) (w : world F) :
  heap w !! message = Some v →
  Z.of_nat (length v) ≠ dimension (input_space self) →
  transmit fuel self message w = (Raise TypeError, w).
Proof.
  intros Hv Hlen. unfold transmit.
  erewrite bind_ok.
  2:{ unfold space_contains. rewrite Hv.
      by rewrite bool_decide_eq_false_2. }
  done.
Qed.

Lemma transmit_rejects_outside_space_witness :
  heap (demo_world msg11) !! 1%positive = Some msg11 ∧
  Z.of_nat (length msg11)
    ≠ dimension (input_space (StaticErrorRateChannel.Build V6 (Fixed 2))) ∧
  transmit 2 (StaticErrorRateChannel.Build V6 (Fixed 2)) 1%positive
    (demo_world msg11) = (Raise TypeError, demo_world msg11).
Proof.
  assert (heap (demo_world msg11) !! 1%positive = Some msg11) as H1
    by apply lookup_singleton_eq.
  assert (Z.of_nat (length msg11)
            ≠ dimension (input_space
                           (StaticErrorRateChannel.Build V6 (Fixed 2)))) as H2
    by (simpl; lia).
  split; [exact H1|]. split; [exact H2|].
  exact (transmit_rejects_outside_space 2 _ 1%positive msg11
           (demo_world msg11) H1 H2).
Defined.

(** X3: a [StaticErrorRateChannel] configured with a couple [(lo, hi)],
    [0 <= lo <= hi <= n], turns every vector [v] of its input space into a
    vector whose difference with [v] has a Hamming weight between [lo] and
    [hi]. *)
Theorem static_channel_range_weight {F : Field} (V : VectorSpace F)
    (lo hi : Z) (self : StaticErrorRateChannel.t F) (message : loc)
    (v : list F) (w : world F) :
  0 ≤ lo ≤ hi →
  StaticErrorRateChannel.__init__ V (Range lo hi) = Ok self →
  heap w !! message = Some v → Z.of_nat (length v) = dimension V →
  unit_tape (uniform w) → fair F (entropy w) →
  ∃ fuel0, ∀ fuel, (fuel0 ≤ fuel)%nat →
    ∃ out w' v',
      transmit fuel self message w = (Ok out, w') ∧
      heap w' !! out = Some v' ∧
      lo ≤ hamming_weight (vector_sub v' v) ≤ hi.
Proof.
  intros Hlo Hinit Hv Hlen Hu Hfair.
  apply static_init_ok in Hinit as [-> Hup].
  destruct (static_transmit_unsafe_sim
              (StaticErrorRateChannel.Build V (Range lo hi)) message v w)
    as (fuel0 & e & ev & w' & Hres & Hweight & Hlenev & Hheap & Hrun);
    [done..|].
  simpl in Hres. exists fuel0. intros fuel Hfuel.
  exists (fresh (dom (heap w))), w', (zip_with add v ev).
  split; [|split].
  - erewrite transmit_in_space by done. by apply Hrun.
  - rewrite Hheap. apply lookup_insert_eq.
  - rewrite vector_add_sub by done. lia.
Qed.

Lemma static_channel_range_weight_witness :
  0 ≤ 1 ≤ 3 ∧
  StaticErrorRateChannel.__init__ V6 (Range 1 3)
    = Ok (StaticErrorRateChannel.Build V6 (Range 1 3)) ∧
  heap (demo_world msg6) !! 1%positive = Some msg6 ∧
  Z.of_nat (length msg6) = dimension V6 ∧
  unit_tape (uniform (demo_world msg6)) ∧
  fair GF59 (entropy (demo_world msg6)) ∧
  ∃ fuel0, ∀ fuel, (fuel0 ≤ fuel)%nat →
    ∃ out w' v',
      transmit fuel (StaticErrorRateChannel.Build V6 (Range 1 3)) 1%positive
        (demo_world msg6) = (Ok out, w') ∧
      heap w' !! out = Some v' ∧
      1 ≤ hamming_weight (vector_sub v' msg6) ≤ 3.
Proof.
  assert (heap (demo_world msg6) !! 1%positive = Some msg6) as H3
    by apply lookup_singleton_eq.
  split; [lia|]. split; [reflexivity|]. split; [exact H3|].
  split; [reflexivity|]. split; [exact demo_unit_tape|].
  split; [exact demo_fair_GF59|].
  apply (static_channel_range_weight V6 1 3 _ 1%positive msg6
           (demo_world msg6));
    [lia|reflexivity|exact H3|reflexivity|exact demo_unit_tape
    |exact demo_fair_GF59].
Defined.

(** ** Edge cases of the position sampler *)

(** With at least as much demand as candidates every candidate is taken, one
    draw each. *)
Lemma while_loop_saturated {F} fuel n i k acc (w : world F) :
  n - i ≤ Z.of_nat fuel → n - i ≤ k → unit_tape (uniform w) →
  while_loop (M:=Sim F) fuel n i k acc w
  = (Ok (acc ++ seqZ i (n - i)), skip_uniform (Z.to_nat (n - i)) w).
Proof.
  revert i k acc w. induction fuel as [|fuel IH]; intros i k acc w Hf Hk Hu.
  { rewrite seqZ_nil by lia. replace (Z.to_nat (n - i)) with 0%nat by lia.
    by rewrite app_nil_r, skip_uniform_0. }
  rewrite while_loop_S. destruct (Z.lt_ge_cases i n) as [Ei|Ei].
  - assert ((i <? n) && (0 <? k) = true) as ->
      by (apply andb_true_iff; split; apply Z.ltb_lt; lia).
    rewrite bind_random_lt.
    assert (Qltb (uniform w 0%nat) (to_float (inject_Z k / inject_Z (n - i)))
            = true)
      as -> by (apply Qltb_lt, ratio_ge_1; [lia|lia|apply Hu]).
    rewrite IH by (try apply unit_tape_shift; (done || lia)).
    rewrite skip_uniform_skip, <- app_assoc.
    rewrite (seqZ_cons i (n - i)) by lia.
    replace (Z.pred (n - i)) with (n - (i + 1)) by lia.
    by replace (1 + Z.to_nat (n - (i + 1)))%nat with (Z.to_nat (n - i)) by lia.
  - assert ((i <? n) && (0 <? k) = false) as ->
      by (apply andb_false_iff; left; apply Z.ltb_ge; lia).
    rewrite seqZ_nil by lia.
    replace (Z.to_nat (n - i)) with 0%nat by lia.
    by rewrite app_nil_r, skip_uniform_0.
Qed.

(** X5: asked for all [n] positions, [_random_error_position] returns
    [0, ..., n-1] after exactly [n] draws, whatever their values in [0,1);
    asked for none, it returns the empty list without drawing at all. *)
Theorem random_error_position_all_or_none {F : Field} (n : Z) (w : world F) :
  unit_tape (uniform w) →
  _random_error_position (M:=Sim F) n n w
    = (Ok (range n), skip_uniform (Z.to_nat n) w) ∧
  _random_error_position (M:=Sim F) n 0 w = (Ok [], w).
Proof.
  intros Hu. unfold _random_error_position. split.
  - rewrite while_loop_saturated by (done || lia).
    by rewrite Z.sub_0_r.
  - by apply while_loop_no_demand.
Qed.

Lemma random_error_position_all_or_none_witness :
  unit_tape (uniform (demo_world msg6)) ∧
  _random_error_position (M:=Sim GF59) 6 6 (demo_world msg6)
    = (Ok (range 6), skip_uniform (Z.to_nat 6) (demo_world msg6)) ∧
  _random_error_position (M:=Sim GF59) 6 0 (demo_world msg6)
    = (Ok [], demo_world msg6).
Proof.
  split; [exact demo_unit_tape|].
  exact (random_error_position_all_or_none 6 (demo_world msg6)
           demo_unit_tape).
Defined.

(** ** Edge cases of the error-vector builder *)

Lemma for_error_positions_app {F} (K : Field) fuel (vect : list K) ps qs
    (w : world F) :
  for_error_positions fuel K vect (ps ++ qs) w
  = (for_error_positions fuel K vect ps
       ≫= λ vect', for_error_positions fuel K vect' qs) w.
Proof.
  revert vect w. induction ps as [|p ps IH]; intros vect w; [done|].
  simpl. unfold mbind, sim_bind in *.
  destruct (while_is_zero fuel K vect p w) as [[vect1|e|] w1]; [|done..].
  apply IH.
Qed.

Lemma while_is_zero_out_of_range {F} (K : Field) fuel (vect : list K) i
    (w : world F) :
  py_index (length vect) i = None →
  while_is_zero (S fuel) K vect i w = (Raise IndexError, w).
Proof.
  intros Hi. simpl. erewrite bind_raise; [done|].
  unfold getitem. by rewrite Hi.
Qed.

Lemma py_index_out_of_range len i :
  i < - Z.of_nat len ∨ Z.of_nat len ≤ i → py_index len i = None.
Proof.
  intros Hi. unfold py_index.
  destruct (0 <=? i) eqn:E1.
  - apply Z.leb_le in E1.
    destruct (i <? Z.of_nat len) eqn:E2; [apply Z.ltb_lt in E2; lia|done].
  - apply Z.leb_gt in E1.
    destruct (- Z.of_nat len <=? i) eqn:E2; [apply Z.leb_le in E2; lia|done].
Qed.

(** X6: when the positions handed to [_random_error_vector] are within
    [[0, n)] up to one that lies outside [[-n, n)], the call ends in an
    [IndexError], raised when that position is reached. *)
Theorem random_error_vector_index_error {F : Field} (K : Field) (n : Z)
    (before : list Z) (i : Z) (after : list Z) (w : world F) :
  0 ≤ n → Forall (λ p, 0 ≤ p < n) before → i < - n ∨ n ≤ i →
  fair K (entropy w) →
  ∃ fuel0 m, ∀ fuel, (fuel0 ≤ fuel)%nat →
    _random_error_vector fuel n K (before ++ i :: after) w
    = (Raise IndexError, skip_entropy m w).
Proof.
  intros Hn Hbefore Hi Hfair. unfold _random_error_vector.
  destruct (for_error_positions_sim K before
              (replicate (Z.to_nat n) (zero : K)) w)
    as (fuel0 & m & vect & Hrun & Hlen & _); [|done|].
  { rewrite length_replicate. eapply Forall_impl; [exact Hbefore|].
    simpl. lia. }
  rewrite length_replicate in Hlen.
  exists (max 1 fuel0)%nat, m. intros [|fuel] Hfuel; [lia|].
  rewrite for_error_positions_app.
  erewrite bind_ok by (apply Hrun; lia).
  simpl. erewrite bind_raise; [done|].
  apply while_is_zero_out_of_range, py_index_out_of_range. lia.
Qed.

Lemma random_error_vector_index_error_witness :
  0 ≤ 5 ∧ Forall (λ p, 0 ≤ p < 5) [1; 3] ∧ (7 < - 5 ∨ 5 ≤ 7) ∧
  fair GF2 (entropy (demo_world msg1)) ∧
  ∃ fuel0 m, ∀ fuel, (fuel0 ≤ fuel)%nat →
    _random_error_vector fuel 5 GF2 ([1; 3] ++ 7 :: [2]) (demo_world msg1)
    = (Raise IndexError, skip_entropy m (demo_world msg1)).
Proof.
  assert (Forall (λ p, 0 ≤ p < 5) [1; 3]) as H2
    by (repeat constructor; lia).
  assert (7 < - 5 ∨ 5 ≤ 7) as H3 by (right; lia).
  split; [lia|]. split; [exact H2|]. split; [exact H3|].
  split; [exact demo_fair_GF2|].
  apply (random_error_vector_index_error GF2 5 [1; 3] 7 [2]
           (demo_world msg1)); [lia|exact H2|exact H3|exact demo_fair_GF2].
Defined.

Lemma py_index_wrap len i :
  - Z.of_nat len ≤ i < 0 → py_index len i = py_index len (Z.of_nat len + i).
Proof.
  intros Hi. unfold py_index.
  destruct (0 <=? i) eqn:E1; [apply Z.leb_le in E1; lia|].
  destruct (- Z.of_nat len <=? i) eqn:E2; [|apply Z.leb_gt in E2; lia].
  destruct (0 <=? Z.of_nat len + i) eqn:E3; [|apply Z.leb_gt in E3; lia].
  destruct (Z.of_nat len + i <? Z.of_nat len) eqn:E4;
    [done|apply Z.ltb_ge in E4; lia].
Qed.

Lemma while_is_zero_wrap {F} (K : Field) fuel (vect : list K) i
    (w : world F) :
  - Z.of_nat (length vect) ≤ i < 0 →
  while_is_zero fuel K vect i w
  = while_is_zero fuel K vect (Z.of_nat (length vect) + i) w.
Proof.
  revert vect w. induction fuel as [|fuel IH]; intros vect w Hi; [done|].
  simpl. unfold getitem, setitem. rewrite <- (py_index_wrap _ i) by done.
  destruct (py_index (length vect) i) as [k|]; [|done]. simpl.
  destruct (vect !! k) as [x|]; [|done].
  unfold mbind, sim_bind, mret, sim_ret. simpl.
  destruct (is_zero x); [|done].
  rewrite IH by (by rewrite length_insert).
  by rewrite length_insert.
Qed.

Lemma for_error_positions_wrap {F} (K : Field) fuel (vect : list K) ps
    (w : world F) :
  Forall (λ p, - Z.of_nat (length vect) ≤ p < Z.of_nat (length vect)) ps →
  for_error_positions fuel K vect ps w
  = for_error_positions fuel K vect
      ((λ p, p mod Z.of_nat (length vect)) <$> ps) w.
Proof.
  revert vect w. induction ps as [|p ps IH]; intros vect w Hps; [done|].
  apply Forall_cons in Hps as [Hp Hps].
  assert (while_is_zero fuel K vect p w
          = while_is_zero fuel K vect (p mod Z.of_nat (length vect)) w) as Hw.
  { destruct (Z.neg_nonneg_cases p) as [Hneg|Hpos].
    - rewrite while_is_zero_wrap by lia. f_equal.
      rewrite <- (Z.mod_small (_ + p) (Z.of_nat (length vect))) by lia.
      rewrite <- (Z_mod_plus_full p 1 (Z.of_nat (length vect))).
      f_equal. lia.
    - by rewrite Z.mod_small by lia. }
  simpl. unfold mbind, sim_bind. rewrite <- Hw.
  destruct (while_is_zero fuel K vect p w) as [[vect1|e|] w1] eqn:E;
    [|done..].
  assert (length vect1 = length vect) as Hlen.
  { clear -E. revert vect w E. induction fuel as [|fuel IHf];
      intros vect w E; [done|].
    simpl in E. unfold getitem, setitem, mbind, sim_bind in E.
    destruct (py_index (length vect) p) as [k|]; [|done]. simpl in E.
    destruct (vect !! k) as [x|]; [|done]. simpl in E.
    destruct (is_zero x).
    - simpl in E. apply IHf in E. by rewrite length_insert in E.
    - by injection E as <- _. }
  rewrite IH by (by rewrite Hlen). by rewrite Hlen.
Qed.

(** X7: a negative position counts from the end: with every position in
    [[-n, n)], [_random_error_vector] does what it does on the positions
    reduced modulo [n], so that [-j] designates coordinate [n - j]. *)
Theorem random_error_vector_negative_positions {F : Field} (K : Field)
    (fuel : nat) (n : Z) (error_positions : list Z) (w : world F) :
  0 ≤ n → Forall (λ p, - n ≤ p < n) error_positions →
  _random_error_vector fuel n K error_positions w
  = _random_error_vector fuel n K ((λ p, p mod n) <$> error_positions) w.
Proof.
  intros Hn Hps. unfold _random_error_vector.
  rewrite for_error_positions_wrap.
  - by rewrite length_replicate, Z2Nat.id by done.
  - rewrite length_replicate, Z2Nat.id by done. done.
Qed.

Lemma random_error_vector_negative_positions_witness :
  0 ≤ 5 ∧ Forall (λ p, - 5 ≤ p < 5) [-1; 2] ∧
  _random_error_vector 3 5 GF2 [-1; 2] (demo_world msg1)
  = _random_error_vector 3 5 GF2 ((λ p, p mod 5) <$> [-1; 2])
      (demo_world msg1).
Proof.
  assert (Forall (λ p, - 5 ≤ p < 5) [-1; 2]) as H2
    by (repeat constructor; lia).
  split; [lia|]. split; [exact H2|].
  apply (random_error_vector_negative_positions GF2 3 5 [-1; 2]
           (demo_world msg1)); [lia|exact H2].
Defined.

Lemma for_error_positions_settled {F} (K : Field) fuel (vect : list K) qs
    (w : world F) :
  Forall (λ q, 0 ≤ q ∧ ∃ x, vect !! Z.to_nat q = Some x ∧ is_zero x = false)
    qs →
  for_error_positions (S fuel) K vect qs w = (Ok vect, w).
Proof.
  induction 1 as [|q qs (Hq & x & Hx & Hnz) _ IH]; [done|].
  change (for_error_positions (S fuel) K vect (q :: qs) w)
    with ((while_is_zero (S fuel) K vect q
             ≫= λ vect', for_error_positions (S fuel) K vect' qs) w).
  erewrite bind_ok by (by eapply while_is_zero_done). exact IH.
Qed.

(** X8: a position listed more than once is drawn for only once: positions
    that occur again after the list [error_positions] change neither the
    vector [_random_error_vector] returns nor what it consumes of the random
    source. *)
Theorem random_error_vector_repeated_positions {F : Field} (K : Field)
    (n : Z) (error_positions again : list Z) (w : world F) :
  Forall (λ p, 0 ≤ p < n) error_positions →
  Forall (λ q, q ∈ error_positions) again →
  fair K (entropy w) →
  ∃ fuel0 vect w', ∀ fuel, (fuel0 ≤ fuel)%nat →
    _random_error_vector fuel n K error_positions w = (Ok vect, w') ∧
    _random_error_vector fuel n K (error_positions ++ again) w
      = (Ok vect, w').
Proof.
  intros Hps Hagain Hfair.
  destruct (random_error_vector_sim K n error_positions w)
    as (fuel0 & m & vect & Hrun & Hlen & Hvect); [done..|].
  exists (max 1 fuel0)%nat, vect, (skip_entropy m w).
  intros [|fuel] Hfuel; [lia|]. split; [apply Hrun; lia|].
  unfold _random_error_vector. rewrite for_error_positions_app.
  erewrite bind_ok by (apply Hrun; lia).
  apply for_error_positions_settled.
  rewrite Forall_forall in Hps, Hagain |- *. intros q Hq.
  specialize (Hagain q Hq). specialize (Hps q Hagain). simpl in Hps.
  destruct (Hvect q Hps) as (y & Hy & Hin & _).
  split; [lia|]. exists y. auto.
Qed.

Lemma random_error_vector_repeated_positions_witness :
  Forall (λ p, 0 ≤ p < 5) [1; 3] ∧ Forall (λ q, q ∈ [1; 3]) [3; 1; 3] ∧
  fair GF2 (entropy (demo_world msg1)) ∧
  ∃ fuel0 (vect : list GF2) w', ∀ fuel, (fuel0 ≤ fuel)%nat →
    _random_error_vector fuel 5 GF2 [1; 3] (demo_world msg1) = (Ok vect, w') ∧
    _random_error_vector fuel 5 GF2 ([1; 3] ++ [3; 1; 3]) (demo_world msg1)
      = (Ok vect, w').
Proof.
  assert (Forall (λ p, 0 ≤ p < 5) [1; 3]) as H1
    by (repeat constructor; lia).
  assert (Forall (λ q, q ∈ [1; 3]) [3; 1; 3]) as H2
    by (repeat constructor; set_solver).
  split; [exact H1|]. split; [exact H2|]. split; [exact demo_fair_GF2|].
  apply (random_error_vector_repeated_positions GF2 5 [1; 3] [3; 1; 3]
           (demo_world msg1)); [exact H1|exact H2|exact demo_fair_GF2].
Defined.

(** ** Display and comparison *)

Lemma string_app_assoc (s1 s2 s3 : string) :
  (s1 +:+ s2) +:+ s3 = s1 +:+ (s2 +:+ s3).
Proof.
  induction s1 as [|c s1 IH]; [done|].
  change (String c ((s1 +:+ s2) +:+ s3) = String c (s1 +:+ (s2 +:+ s3))).
  by f_equal.
Qed.

(** X9: [__repr__] of an [ErrorErasureChannel] looks at the number of errors
    only to choose between the two texts: it fails, with a [TypeError],
    exactly for a channel whose number of errors is a couple and whose number
    of erasures is an integer, and returns a text for every other channel. *)
Theorem error_erasure_repr_type_error {F : Field}
    (self : ErrorErasureChannel.t F) :
  (ErrorErasureChannel.__repr__ self = Raise TypeError ↔
     ∃ lo hi r, ErrorErasureChannel.number_errors self = Range lo hi ∧
                ErrorErasureChannel.number_erasures self = Fixed r) ∧
  (ErrorErasureChannel.__repr__ self = Raise TypeError ∨
     ∃ text, ErrorErasureChannel.__repr__ self = Ok text).
Proof.
  destruct self as [V [e|lo hi] [r|lo' hi']];
    unfold ErrorErasureChannel.__repr__; simpl.
  - split; [|right; eauto]. split; [done|]. by intros (? & ? & ? & ? & _).
  - split; [|right; eauto]. split; [done|]. by intros (? & ? & ? & ? & _).
  - split; [|by left]. split; [eauto|done].
  - split; [|right; eauto]. split; [done|]. by intros (? & ? & ? & _ & ?).
Qed.

(** X10: [_latex_] of an [ErrorErasureChannel] is its [__repr__] inside
    [\textnormal{...}], and fails as [__repr__] does. *)
Theorem error_erasure_latex_wraps_repr {F : Field}
    (self : ErrorErasureChannel.t F) :
  ErrorErasureChannel._latex_ self
  = match ErrorErasureChannel.__repr__ self with
    | Ok text => Ok ("\textnormal{" +:+ text +:+ "}")
    | Raise e => Raise e
    | OutOfFuel => OutOfFuel
    end.
Proof.
  destruct self as [V [e|lo hi] [r|lo' hi']];
    unfold ErrorErasureChannel._latex_, ErrorErasureChannel.__repr__;
    simpl; try done; rewrite !string_app_assoc; reflexivity.
Qed.

(** X11: two channels that their constructors accepted compare equal with
    [==] exactly when they are of the same class and were built from the same
    space and the same counts; a [StaticErrorRateChannel] and an
    [ErrorErasureChannel] never compare equal, in either order. *)
Theorem channels_equal_iff_same_arguments {F : Field}
    (V V' W W' : VectorSpace F) (c c' d d' r r' : count)
    (a a' : StaticErrorRateChannel.t F) (b b' : ErrorErasureChannel.t F) :
  StaticErrorRateChannel.__init__ V c = Ok a →
  StaticErrorRateChannel.__init__ V' c' = Ok a' →
  ErrorErasureChannel.__init__ W d r = Ok b →
  ErrorErasureChannel.__init__ W' d' r' = Ok b' →
  (StaticErrorRateChannel.__eq__ a (StaticErrorRateChannel.as_object a') = true
     ↔ V = V' ∧ c = c') ∧
  (ErrorErasureChannel.__eq__ b (ErrorErasureChannel.as_object b') = true
     ↔ W = W' ∧ d = d' ∧ r = r') ∧
  StaticErrorRateChannel.__eq__ a (ErrorErasureChannel.as_object b') = false ∧
  ErrorErasureChannel.__eq__ b (StaticErrorRateChannel.as_object a') = false.
Proof.
  intros Ha Ha' Hb Hb'.
  apply static_init_ok in Ha as [-> _], Ha' as [-> _].
  apply error_erasure_init_ok in Hb as [-> _], Hb' as [-> _].
  unfold StaticErrorRateChannel.__eq__, ErrorErasureChannel.__eq__. simpl.
  rewrite !andb_true_iff, !bool_decide_eq_true. tauto.
Qed.

Lemma channels_equal_iff_same_arguments_witness :
  let a := StaticErrorRateChannel.Build V6 (Fixed 2) in
  let a' := StaticErrorRateChannel.Build V6 (Range 1 2) in
  let b := ErrorErasureChannel.Build V6 (Fixed 2) (Fixed 0) in
  let b' := ErrorErasureChannel.Build V6 (Fixed 2) (Fixed 1) in
  StaticErrorRateChannel.__init__ V6 (Fixed 2) = Ok a ∧
  StaticErrorRateChannel.__init__ V6 (Range 1 2) = Ok a' ∧
  ErrorErasureChannel.__init__ V6 (Fixed 2) (Fixed 0) = Ok b ∧
  ErrorErasureChannel.__init__ V6 (Fixed 2) (Fixed 1) = Ok b' ∧
  (StaticErrorRateChannel.__eq__ a (StaticErrorRateChannel.as_object a') = true
     ↔ V6 = V6 ∧ Fixed 2 = Range 1 2) ∧
  (ErrorErasureChannel.__eq__ b (ErrorErasureChannel.as_object b') = true
     ↔ V6 = V6 ∧ Fixed 2 = Fixed 2 ∧ Fixed 0 = Fixed 1) ∧
  StaticErrorRateChannel.__eq__ a (ErrorErasureChannel.as_object b') = false ∧
  ErrorErasureChannel.__eq__ b (StaticErrorRateChannel.as_object a') = false.
Proof.
  intros a a' b b'.
  split; [reflexivity|]. split; [reflexivity|]. split; [reflexivity|].
  split; [reflexivity|].
  apply (channels_equal_iff_same_arguments V6 V6 V6 V6 (Fixed 2) (Range 1 2)
           (Fixed 2) (Fixed 2) (Fixed 0) (Fixed 1) a a' b b');
    reflexivity.
Defined.

(** ** Channels at the edges of their configuration *)

Lemma add_zero_vector {F : Field} (v : list F) (k : nat) :
  length v = k → zip_with add v (replicate k zero) = v.
Proof.
  revert k. induction v as [|x v IH]; intros k Hk; [by destruct k|].
  destruct k as [|k]; [done|]. simpl. rewrite add_zero_r. f_equal.
  apply IH. simpl in Hk. lia.
Qed.

(** X12: a [StaticErrorRateChannel] whose count is zero, or negative, which
    the constructor accepts, delivers a copy of the message, equal to it,
    whatever the fuel, and draws nothing from the random source. *)
Theorem static_channel_without_errors {F : Field} (V : VectorSpace F) (e : Z)
    (self : StaticErrorRateChannel.t F) (fuel : nat) (message : loc)
    (v : list F) (w : world F) :
  e ≤ 0 →
  StaticErrorRateChannel.__init__ V (Fixed e) = Ok self →
  heap w !! message = Some v → Z.of_nat (length v) = dimension V →
  transmit fuel self message w
  = (Ok (fresh (dom (heap w))),
     World (uniform w) (entropy w) (<[fresh (dom (heap w)):=v]> (heap w))).
Proof.
  intros He Hinit Hv Hlen.
  apply static_init_ok in Hinit as [-> _].
  erewrite transmit_in_space by done.
  change (transmit_unsafe fuel (StaticErrorRateChannel.Build V (Fixed e))
            message w)
    with (StaticErrorRateChannel.transmit_unsafe fuel
            (StaticErrorRateChannel.Build V (Fixed e)) message w).
  unfold StaticErrorRateChannel.transmit_unsafe.
  erewrite bind_ok by reflexivity.
  erewrite bind_ok by (by apply while_loop_no_demand).
  erewrite bind_ok by reflexivity.
  simpl.
  rewrite (vector_add_sim message v)
    by (rewrite ?length_replicate; (done || lia)).
  by rewrite add_zero_vector by lia.
Qed.

Lemma static_channel_without_errors_witness :
  0 ≤ 0 ∧
  StaticErrorRateChannel.__init__ V6 (Fixed 0)
    = Ok (StaticErrorRateChannel.Build V6 (Fixed 0)) ∧
  heap (demo_world msg6) !! 1%positive = Some msg6 ∧
  Z.of_nat (length msg6) = dimension V6 ∧
  transmit 0 (StaticErrorRateChannel.Build V6 (Fixed 0)) 1%positive
    (demo_world msg6)
  = (Ok (fresh (dom (heap (demo_world msg6)))),
     World (uniform (demo_world msg6)) (entropy (demo_world msg6))
       (<[fresh (dom (heap (demo_world msg6))):=msg6]>
          (heap (demo_world msg6)))).
Proof.
  assert (heap (demo_world msg6) !! 1%positive = Some msg6) as H3
    by apply lookup_singleton_eq.
  split; [lia|]. split; [reflexivity|]. split; [exact H3|].
  split; [reflexivity|].
  apply (static_channel_without_errors V6 0 _ 0 1%positive msg6
           (demo_world msg6)); [lia|reflexivity|exact H3|reflexivity].
Defined.

(** X4: an [ErrorErasureChannel] configured with couples resolves both
    counts within their bounds at each transmission: the indicator has a
    Hamming weight [r] among the values the number of erasures allows, and
    outside the marked positions the received vector differs from the message
    in [e] positions, [e] among the values the number of errors allows. *)
Theorem error_erasure_range_counts {F : Field} (V : VectorSpace F)
    (number_errors number_erasures : count)
    (self : ErrorErasureChannel.t F) (message : loc) (v : list F)
    (w : world F) :
  proper number_errors → proper number_erasures →
  ErrorErasureChannel.__init__ V number_errors number_erasures = Ok self →
  heap w !! message = Some v → Z.of_nat (length v) = dimension V →
  unit_tape (uniform w) → fair F (entropy w) → fair GF2 (entropy w) →
  ∃ fuel0 e r,
    resolves number_errors e ∧ resolves number_erasures r ∧
    ∀ fuel, (fuel0 ≤ fuel)%nat →
      ∃ out indicator w' v',
        transmit fuel self message w = (Ok (out, indicator), w') ∧
        heap w' !! out = Some v' ∧
        hamming_weight indicator = r ∧
        hamming_weight (outside_erasures indicator (vector_sub v' v)) = e.
Proof.
  intros Hce Hcr Hinit Hv Hlen Hu HfairF Hfair2.
  apply error_erasure_init_ok in Hinit as [-> Hup].
  destruct (error_erasure_sim
              (ErrorErasureChannel.Build V number_errors number_erasures)
              message v w)
    as (fuel0 & e & r & errs & eras & w1 & w' & v' & ind & He & Hr
        & Hdraw & HlenE & HlenR & Hnd & Hrange & Hrun & Hheap & Hlenv'
        & Hlenind & Hpos); [done..|].
  simpl in He, Hr, Hrange, Hpos.
  change (carrier GF2) with bool in *.
  apply Forall_app in Hrange as [HrE HrR].
  pose proof Hnd as Hnd'.
  apply NoDup_app in Hnd' as (HndE & Hdisj & HndR).
  assert (∀ i : nat, (i < length v)%nat →
            ∃ x x' b, v !! i = Some x ∧ v' !! i = Some x' ∧
              ind !! i = Some b ∧
              (Z.of_nat i ∈ eras → x' = zero ∧ b = true) ∧
              (Z.of_nat i ∉ eras → b = false) ∧
              (Z.of_nat i ∈ errs → is_zero (sub x' x) = false) ∧
              (Z.of_nat i ∉ errs → Z.of_nat i ∉ eras → x' = x)) as Hat.
  { intros i Hi. specialize (Hpos (Z.of_nat i) ltac:(lia)).
    by rewrite Nat2Z.id in Hpos. }
  exists fuel0, e, r. split; [done|]. split; [done|].
  intros fuel Hfuel. exists (fresh (dom (heap w))), ind, w', v'.
  split; [erewrite transmit_in_space by done; by apply Hrun|].
  split; [rewrite Hheap; apply lookup_insert_eq|].
  split.
  - unfold hamming_weight. rewrite <- HlenR. f_equal.
    apply (weight_count (F:=GF2) ind 0 eras); [done| |].
    + eapply Forall_impl; [exact HrR|]. simpl. lia.
    + intros k b Hb. rewrite Z.add_0_l.
      change (carrier GF2) with bool in *.
      destruct (Hat k) as (x & x' & b' & _ & _ & Hb' & Hin & Hout & _).
      { apply lookup_lt_Some in Hb. lia. }
      assert (b' = b) as -> by congruence. split.
      * intros Hnz. destruct (decide (Z.of_nat k ∈ eras)) as [|Hnot]; [done|].
        rewrite (Hout Hnot) in Hnz. done.
      * intros Hk. by destruct (Hin Hk) as [_ ->].
  - unfold hamming_weight. rewrite <- HlenE. f_equal.
    apply (weight_count _ 0 errs); [done| |].
    + unfold outside_erasures, vector_sub. rewrite !length_zip_with.
      eapply Forall_impl; [exact HrE|]. simpl. lia.
    + intros k y Hy. rewrite Z.add_0_l.
      apply lookup_zip_with_Some in Hy as (b & d & -> & Hb & Hd).
      apply lookup_zip_with_Some in Hd as (x' & x & -> & Hx' & Hx).
      destruct (Hat k) as (x0 & x0' & b' & Hx0 & Hx0' & Hb' & Hin & Hout
                             & HinE & Hsame).
      { by apply lookup_lt_Some in Hx. }
      assert (x0 = x) as -> by congruence.
      assert (x0' = x') as -> by congruence.
      assert (b' = b) as -> by congruence.
      destruct (decide (Z.of_nat k ∈ eras)) as [Hk|Hk].
      * destruct (Hin Hk) as [_ ->]. rewrite is_zero_zero. split; [done|].
        intros HkE. destruct (Hdisj _ HkE Hk).
      * rewrite (Hout Hk). split; [|done]. intros Hnz.
        destruct (decide (Z.of_nat k ∈ errs)) as [|HkE]; [done|].
        rewrite (Hsame HkE Hk) in Hnz. unfold sub in Hnz.
        rewrite add_neg_r, is_zero_zero in Hnz. done.
Qed.

Lemma error_erasure_range_counts_witness :
  proper (Range 1 2) ∧ proper (Range 0 3) ∧
  ErrorErasureChannel.__init__ V11 (Range 1 2) (Range 0 3)
    = Ok (ErrorErasureChannel.Build V11 (Range 1 2) (Range 0 3)) ∧
  heap (demo_world msg11) !! 1%positive = Some msg11 ∧
  Z.of_nat (length msg11) = dimension V11 ∧
  unit_tape (uniform (demo_world msg11)) ∧
  fair GF59 (entropy (demo_world msg11)) ∧
  fair GF2 (entropy (demo_world msg11)) ∧
  ∃ fuel0 e r,
    resolves (Range 1 2) e ∧ resolves (Range 0 3) r ∧
    ∀ fuel, (fuel0 ≤ fuel)%nat →
      ∃ out indicator w' v',
        transmit fuel (ErrorErasureChannel.Build V11 (Range 1 2) (Range 0 3))
          1%positive (demo_world msg11) = (Ok (out, indicator), w') ∧
        heap w' !! out = Some v' ∧
        hamming_weight indicator = r ∧
        hamming_weight (outside_erasures indicator (vector_sub v' msg11)) = e.
Proof.
  assert (heap (demo_world msg11) !! 1%positive = Some msg11) as H4
    by apply lookup_singleton_eq.
  assert (proper (Range 1 2)) as H1 by (simpl; lia).
  assert (proper (Range 0 3)) as H2 by (simpl; lia).
  split; [exact H1|]. split; [exact H2|]. split; [reflexivity|].
  split; [exact H4|]. split; [reflexivity|]. split; [exact demo_unit_tape|].
  split; [exact demo_fair_GF59|]. split; [exact demo_fair_GF2|].
  apply (error_erasure_range_counts V11 (Range 1 2) (Range 0 3) _
           1%positive msg11 (demo_world msg11));
    [exact H1|exact H2|reflexivity|exact H4|reflexivity|exact demo_unit_tape
    |exact demo_fair_GF59|exact demo_fair_GF2].
Defined.

Lemma filter_Forall_all {A} (P : A → Prop) `{∀ x, Decision (P x)} (l : list A) :
  Forall P l → filter P l = l.
Proof.
  induction 1 as [|x l Hx _ IH]; [done|].
  by rewrite filter_cons_True, IH by done.
Qed.

Lemma filter_Forall_none {A} (P : A → Prop) `{∀ x, Decision (P x)}
    (l : list A) :
  Forall (λ x, ¬ P x) l → filter P l = [].
Proof.
  induction 1 as [|x l Hx _ IH]; [done|].
  by rewrite filter_cons_False by done.
Qed.

(** X14: the constructor of [ErrorErasureChannel] bounds the sum of the two
    counts only, so it accepts a negative number of errors [e] with any
    number of erasures [r], [e + r <= n].  Such a channel makes no error and
    erases [max(0, e + r)] positions, not [r]: the indicator has that weight,
    the received vector is zero where it is marked and equals the message
    elsewhere. *)
Theorem error_erasure_negative_error_count {F : Field} (V : VectorSpace F)
    (e r : Z) (self : ErrorErasureChannel.t F) (message : loc) (v : list F)
    (w : world F) :
  e < 0 →
  ErrorErasureChannel.__init__ V (Fixed e) (Fixed r) = Ok self →
  heap w !! message = Some v → Z.of_nat (length v) = dimension V →
  unit_tape (uniform w) → fair GF2 (entropy w) →
  ∃ fuel0, ∀ fuel, (fuel0 ≤ fuel)%nat →
    ∃ out indicator w' v',
      transmit fuel self message w = (Ok (out, indicator), w') ∧
      heap w' !! out = Some v' ∧
      hamming_weight indicator = Z.max 0 (e + r) ∧
      (∀ i, erased indicator i → v' !! i = Some zero) ∧
      (∀ i, indicator !! i = Some false → v' !! i = v !! i).
Proof.
  intros He Hinit Hv Hlen Hu Hfair2.
  apply error_erasure_init_ok in Hinit as [-> Hup]. simpl in Hup.
  set (n := dimension V) in *. set (k := e + r) in *.
  assert (∃ ps m,
            _random_error_position (M:=Sim F) n k w
              = (Ok ps, skip_uniform m w) ∧
            Z.of_nat (length ps) = Z.max 0 k ∧ NoDup ps ∧
            Forall (λ x, 0 ≤ x < n) ps)
    as (ps & m & Hrun & Hlenps & Hnd & Hrange).
  { destruct (Z.lt_ge_cases k 0) as [Hk|Hk].
    - exists [], 0%nat. rewrite skip_uniform_0.
      split; [apply while_loop_no_demand; lia|].
      split; [simpl; lia|]. split; [constructor|constructor].
    - destruct (sampler_sim n k w)
        as (ps & m & Hrun & Hlenps & Hsort & Hrange & _); [lia|done|].
      exists ps, m. split; [done|]. split; [lia|].
      split; [by apply StronglySorted_lt_NoDup|done]. }
  assert ((λ i, ps !!! Z.to_nat i) <$> seqZ 0 k = ps) as Hfm.
  { destruct (Z.lt_ge_cases k 0) as [Hk|Hk].
    - rewrite seqZ_nil by lia. destruct ps; [done|simpl in Hlenps; lia].
    - replace k with (Z.of_nat (length ps)) by lia.
      apply fmap_seqZ_lookup_total. }
  assert (ErrorErasureChannel.draw_positions
            (ErrorErasureChannel.Build V (Fixed e) (Fixed r)) w
          = (Ok ([], ps), skip_uniform m w)) as Hdraw.
  { unfold ErrorErasureChannel.draw_positions.
    erewrite bind_ok by reflexivity.
    erewrite bind_ok by reflexivity.
    simpl. fold n. fold k.
    erewrite bind_ok by exact Hrun.
    erewrite bind_ok by (apply while_loop_no_demand; lia).
    unfold range.
    assert (Forall (λ i : Z, ¬ (i ∈ @nil Z)) (seqZ 0 k)) as Hnone
      by (apply Forall_forall; intros x _; apply not_elem_of_nil).
    assert (Forall (λ i : Z, i ∉ @nil Z) (seqZ 0 k)) as Hall
      by (apply Forall_forall; intros x _; apply not_elem_of_nil).
    rewrite (filter_Forall_none _ _ Hnone), (filter_Forall_all _ _ Hall).
    erewrite bind_ok by reflexivity.
    erewrite bind_ok.
    2:{ apply subscript_all_ok, Forall_seqZ. lia. }
    by rewrite Hfm. }
  destruct (random_error_vector_sim (F:=F) GF2 n ps (skip_uniform m w))
    as (fuel0 & m2 & ind & Hrun2 & Hlen2 & Hind); [done|done|].
  change (carrier GF2) with bool in *.
  assert (∀ i : nat, ind !! i = Some true → Z.of_nat i ∈ ps) as Hmarked.
  { intros i Hi.
    destruct (Hind (Z.of_nat i)) as (b & Hb & _ & Hout).
    { apply lookup_lt_Some in Hi. lia. }
    rewrite Nat2Z.id in Hb.
    destruct (decide (Z.of_nat i ∈ ps)) as [|Hnot]; [done|].
    specialize (Hout Hnot). simpl in Hout. congruence. }
  assert (∀ i : nat, ind !! i = Some false → Z.of_nat i ∉ ps) as Hunmarked.
  { intros i Hi Hin.
    destruct (Hind (Z.of_nat i)) as (b & Hb & Hnz & _).
    { apply lookup_lt_Some in Hi. lia. }
    rewrite Nat2Z.id in Hb. specialize (Hnz Hin).
    assert (b = false) as -> by congruence. done. }
  set (w2 := skip_entropy m2 (skip_uniform m w)) in *.
  set (l := fresh (dom (heap w2))).
  exists fuel0. intros fuel Hfuel.
  exists l, ind,
    (World (uniform w2) (entropy w2) (<[l:=erase_all ps v]> (heap w2))),
    (erase_all ps v).
  split; [|split; [|split; [|split]]].
  - erewrite transmit_in_space by done.
    change (ErrorErasureChannel.transmit_unsafe fuel
              (ErrorErasureChannel.Build V (Fixed e) (Fixed r)) message w
            = (Ok (l, ind),
               World (uniform w2) (entropy w2)
                 (<[l:=erase_all ps v]> (heap w2)))).
    unfold ErrorErasureChannel.transmit_unsafe.
    erewrite bind_ok by exact Hdraw.
    unfold ErrorErasureChannel.corrupt. simpl. fold n.
    erewrite bind_ok by reflexivity.
    erewrite bind_ok by (by apply Hrun2).
    erewrite bind_ok.
    2:{ apply (vector_add_sim message v); [done|].
        rewrite length_replicate. lia. }
    rewrite add_zero_vector by lia.
    erewrite bind_ok.
    2:{ apply (for_erasure_positions_sim _ ps v).
        - simpl. apply lookup_insert_eq.
        - eapply Forall_impl; [exact Hrange|]. simpl. lia. }
    simpl. by rewrite insert_insert_eq.
  - simpl. apply lookup_insert_eq.
  - unfold hamming_weight. rewrite <- Hlenps. f_equal.
    apply (weight_count (F:=GF2) ind 0 ps); [done| |].
    + eapply Forall_impl; [exact Hrange|]. simpl.
      change (carrier GF2) with bool in *. lia.
    + intros i b Hb. rewrite Z.add_0_l.
      change (carrier GF2) with bool in *.
      destruct b; simpl.
      * split; [intros _; by apply Hmarked|done].
      * split; [done|]. intros Hin. by destruct (Hunmarked i Hb).
  - intros i Hi. rewrite <- (Nat2Z.id i). apply erase_all_in.
    + eapply Forall_impl; [exact Hrange|]. simpl. lia.
    + by apply Hmarked.
  - intros i Hi. apply erase_all_notin.
    + eapply Forall_impl; [exact Hrange|]. simpl. lia.
    + by apply Hunmarked.
Qed.

Lemma error_erasure_negative_error_count_witness :
  -1 < 0 ∧
  ErrorErasureChannel.__init__ V11 (Fixed (-1)) (Fixed 3)
    = Ok (ErrorErasureChannel.Build V11 (Fixed (-1)) (Fixed 3)) ∧
  heap (demo_world msg11) !! 1%positive = Some msg11 ∧
  Z.of_nat (length msg11) = dimension V11 ∧
  unit_tape (uniform (demo_world msg11)) ∧
  fair GF2 (entropy (demo_world msg11)) ∧
  ∃ fuel0, ∀ fuel, (fuel0 ≤ fuel)%nat →
    ∃ out indicator w' v',
      transmit fuel (ErrorErasureChannel.Build V11 (Fixed (-1)) (Fixed 3))
        1%positive (demo_world msg11) = (Ok (out, indicator), w') ∧
      heap w' !! out = Some v' ∧
      hamming_weight indicator = Z.max 0 (-1 + 3) ∧
      (∀ i, erased indicator i → v' !! i = Some zero) ∧
      (∀ i, indicator !! i = Some false → v' !! i = msg11 !! i).
Proof.
  assert (heap (demo_world msg11) !! 1%positive = Some msg11) as H3
    by apply lookup_singleton_eq.
  split; [lia|]. split; [reflexivity|]. split; [exact H3|].
  split; [reflexivity|]. split; [exact demo_unit_tape|].
  split; [exact demo_fair_GF2|].
  apply (error_erasure_negative_error_count V11 (-1) 3 _ 1%positive msg11
           (demo_world msg11));
    [lia|reflexivity|exact H3|reflexivity|exact demo_unit_tape
    |exact demo_fair_GF2].
Defined.

(** X15: the constructor of [StaticErrorRateChannel] looks at the second
    member of a couple only, so it accepts a couple [(lo, hi)] with
    [hi < lo]; every checked transmission of such a channel then fails with
    the [ValueError] of [randint], before anything is drawn. *)
Theorem static_channel_inverted_range {F : Field} (V : VectorSpace F)
    (lo hi : Z) (fuel : nat) (message : loc) (v : list F) (w : world F) :
  hi < lo → hi ≤ dimension V →
  heap w !! message = Some v → Z.of_nat (length v) = dimension V →
  StaticErrorRateChannel.__init__ V (Range lo hi)
    = Ok (StaticErrorRateChannel.Build V (Range lo hi)) ∧
  transmit fuel (StaticErrorRateChannel.Build V (Range lo hi)) message w
    = (Raise ValueError, w).
Proof.
  intros Hlo Hhi Hv Hlen. split.
  - unfold StaticErrorRateChannel.__init__.
    destruct (dimension V <? hi) eqn:E; [apply Z.ltb_lt in E; lia|done].
  - erewrite transmit_in_space by done.
    change (StaticErrorRateChannel.transmit_unsafe fuel
              (StaticErrorRateChannel.Build V (Range lo hi)) message w
            = (Raise ValueError, w)).
    unfold StaticErrorRateChannel.transmit_unsafe.
    erewrite bind_raise; [done|]. simpl. unfold randint.
    destruct (lo <=? hi) eqn:E; [apply Z.leb_le in E; lia|done].
Qed.

Lemma static_channel_inverted_range_witness :
  1 < 3 ∧ 1 ≤ dimension V6 ∧
  heap (demo_world msg6) !! 1%positive = Some msg6 ∧
  Z.of_nat (length msg6) = dimension V6 ∧
  StaticErrorRateChannel.__init__ V6 (Range 3 1)
    = Ok (StaticErrorRateChannel.Build V6 (Range 3 1)) ∧
  transmit 5 (StaticErrorRateChannel.Build V6 (Range 3 1)) 1%positive
    (demo_world msg6) = (Raise ValueError, demo_world msg6).
Proof.
  assert (heap (demo_world msg6) !! 1%positive = Some msg6) as H3
    by apply lookup_singleton_eq.
  assert (1 ≤ dimension V6) as H2 by (simpl; lia).
  split; [lia|]. split; [exact H2|]. split; [exact H3|].
  split; [reflexivity|].
  apply (static_channel_inverted_range V6 3 1 5 1%positive msg6
           (demo_world msg6)); [lia|exact H2|exact H3|reflexivity].
Defined.

(** ** Successive transmissions *)

(** The world a transmission of the static channel leaves: both tapes
    advanced, the store extended by the received vector. *)
Lemma static_transmit_unsafe_run {F : Field}
    (self : StaticErrorRateChannel.t F) message v (w : world F) :
  let n := dimension (StaticErrorRateChannel._input_space self) in
  proper (StaticErrorRateChannel.number_errors self) →
  upper_bound (StaticErrorRateChannel.number_errors self) ≤ n →
  heap w !! message = Some v → Z.of_nat (length v) = n →
  unit_tape (uniform w) → fair F (entropy w) →
  ∃ fuel0 error_vector a b,
    hamming_weight error_vector
      ≤ upper_bound (StaticErrorRateChannel.number_errors self) ∧
    length error_vector = length v ∧
    ∀ fuel, (fuel0 ≤ fuel)%nat →
      StaticErrorRateChannel.transmit_unsafe fuel self message w
      = (Ok (fresh (dom (heap w))),
         World (shift a (uniform w)) (shift b (entropy w))
           (<[fresh (dom (heap w)):=zip_with add v error_vector]> (heap w))).
Proof.
  intros n Hc Hup Hv Hlen Hu Hfair.
  destruct (tuple_to_integer_sim (StaticErrorRateChannel.number_errors self) w)
    as (e & m0 & Hrun0 & He & Hebound); [done|].
  destruct (sampler_sim n e (skip_entropy m0 w))
    as (l & m1 & Hrun1 & Hl & Hsort & Hrange & _ & _ & _); [lia|done|].
  destruct (random_error_vector_sim F n l (skip_uniform m1 (skip_entropy m0 w)))
    as (fuel0 & m2 & vect & Hrun2 & Hvlen & Hvect);
    [done|by apply fair_shift|].
  exists fuel0, vect, m1, (m0 + m2)%nat.
  split; [|split; [lia|]].
  - assert (hamming_weight vect = e) as ->; [|lia].
    unfold hamming_weight. rewrite <- Hl. f_equal.
    apply (weight_count vect 0 l).
    + by apply StronglySorted_lt_NoDup.
    + eapply Forall_impl; [exact Hrange|]. simpl. lia.
    + intros k x Hx. rewrite Z.add_0_l.
      destruct (Hvect (Z.of_nat k)) as (y & Hy & Hin & Hout).
      { apply lookup_lt_Some in Hx. lia. }
      rewrite Nat2Z.id in Hy. assert (y = x) as -> by congruence.
      split; [|done]. intros Hnz.
      destruct (decide (Z.of_nat k ∈ l)) as [|Hnot]; [done|].
      rewrite (Hout Hnot), is_zero_zero in Hnz. done.
  - intros fuel Hfuel. unfold StaticErrorRateChannel.transmit_unsafe.
    erewrite bind_ok by exact Hrun0.
    erewrite bind_ok by exact Hrun1.
    erewrite bind_ok by (by apply Hrun2).
    rewrite (vector_add_sim message v vect) by (done || (simpl; lia)).
    simpl. by rewrite shift_shift.
Qed.

Lemma weight_add_le {F : Field} (e1 e2 : list F) :
  hamming_weight (zip_with add e1 e2)
  ≤ hamming_weight e1 + hamming_weight e2.
Proof.
  unfold hamming_weight. revert e2.
  induction e1 as [|x e1 IH]; intros [|y e2]; [simpl; lia..|].
  specialize (IH e2).
  change (zip_with add (x :: e1) (y :: e2))
    with (add x y :: zip_with add e1 e2).
  rewrite !filter_cons. repeat case_decide; simpl length; try lia.
  repeat match goal with
         | H : ¬ _ = false |- _ => apply not_false_iff_true, is_zero_spec in H
         end.
  subst. rewrite add_zero_r, is_zero_zero in *. done.
Qed.

Lemma vector_add_add_sub {F : Field} (v e1 e2 : list F) :
  length v = length e1 → length v = length e2 →
  vector_sub (zip_with add (zip_with add v e1) e2) v = zip_with add e1 e2.
Proof.
  revert e1 e2.
  induction v as [|x v IH]; intros [|y e1] [|z e2] H1 H2; try done.
  unfold vector_sub in *. simpl in *. f_equal; [|apply IH; lia].
  rewrite <- add_assoc. apply add_sub_cancel.
Qed.

(** X16: a channel is reusable: what a [StaticErrorRateChannel] delivered
    can be transmitted again, the second transmission succeeds, and the
    vector received at the end differs from the first message in at most
    twice the largest configured number of errors. *)
Theorem static_channel_twice {F : Field} (V : VectorSpace F)
    (number_errors : count) (self : StaticErrorRateChannel.t F)
    (message : loc) (v : list F) (w : world F) :
  proper number_errors →
  StaticErrorRateChannel.__init__ V number_errors = Ok self →
  heap w !! message = Some v → Z.of_nat (length v) = dimension V →
  unit_tape (uniform w) → fair F (entropy w) →
  ∃ fuel0, ∀ fuel, (fuel0 ≤ fuel)%nat →
    ∃ out1 w1 out2 w2 v2,
      transmit fuel self message w = (Ok out1, w1) ∧
      transmit fuel self out1 w1 = (Ok out2, w2) ∧
      heap w2 !! message = Some v ∧
      heap w2 !! out2 = Some v2 ∧
      hamming_weight (vector_sub v2 v) ≤ 2 * upper_bound number_errors.
Proof.
  intros Hc Hinit Hv Hlen Hu Hfair.
  apply static_init_ok in Hinit as [-> Hup].
  set (self := StaticErrorRateChannel.Build V number_errors).
  destruct (static_transmit_unsafe_run self message v w)
    as (fuel0 & ev1 & a1 & b1 & Hw1 & Hlen1 & Hrun1); [done..|].
  set (out1 := fresh (dom (heap w))) in *.
  set (v1 := zip_with add v ev1) in *.
  set (w1 := World (shift a1 (uniform w)) (shift b1 (entropy w))
               (<[out1:=v1]> (heap w))) in *.
  assert (length v1 = length v) as Hlenv1
    by (unfold v1; rewrite length_zip_with; lia).
  destruct (static_transmit_unsafe_run self out1 v1 w1)
    as (fuel1 & ev2 & a2 & b2 & Hw2 & Hlen2 & Hrun2);
    [done|done|apply lookup_insert_eq|simpl; lia
    |by apply unit_tape_shift|by apply fair_shift|].
  simpl in Hw1, Hw2.
  assert (message ≠ out1) as Hne1.
  { intros ->. apply (is_fresh (dom (heap w))). by apply elem_of_dom. }
  assert (message ≠ fresh (dom (heap w1))) as Hne2.
  { intros Heq. apply (is_fresh (dom (heap w1))). rewrite <- Heq.
    apply elem_of_dom. simpl. rewrite lookup_insert_ne by done. eauto. }
  exists (max fuel0 fuel1)%nat. intros fuel Hfuel.
  eexists out1, w1, (fresh (dom (heap w1))), _, (zip_with add v1 ev2).
  split; [|split; [|split; [|split]]].
  - erewrite transmit_in_space by done. apply Hrun1. lia.
  - erewrite transmit_in_space;
      [apply Hrun2; lia|apply lookup_insert_eq|simpl; lia].
  - simpl. by rewrite !lookup_insert_ne by done.
  - simpl. apply lookup_insert_eq.
  - unfold v1. rewrite vector_add_add_sub by lia.
    pose proof (weight_add_le ev1 ev2). lia.
Qed.

Lemma static_channel_twice_witness :
  proper (Fixed 2) ∧
  StaticErrorRateChannel.__init__ V6 (Fixed 2)
    = Ok (StaticErrorRateChannel.Build V6 (Fixed 2)) ∧
  heap (demo_world msg6) !! 1%positive = Some msg6 ∧
  Z.of_nat (length msg6) = dimension V6 ∧
  unit_tape (uniform (demo_world msg6)) ∧
  fair GF59 (entropy (demo_world msg6)) ∧
  ∃ fuel0, ∀ fuel, (fuel0 ≤ fuel)%nat →
    ∃ out1 w1 out2 w2 v2,
      transmit fuel (StaticErrorRateChannel.Build V6 (Fixed 2)) 1%positive
        (demo_world msg6) = (Ok out1, w1) ∧
      transmit fuel (StaticErrorRateChannel.Build V6 (Fixed 2)) out1 w1
        = (Ok out2, w2) ∧
      heap w2 !! 1%positive = Some msg6 ∧
      heap w2 !! out2 = Some v2 ∧
      hamming_weight (vector_sub v2 msg6) ≤ 2 * upper_bound (Fixed 2).
Proof.
  assert (heap (demo_world msg6) !! 1%positive = Some msg6) as H3
    by apply lookup_singleton_eq.
  assert (proper (Fixed 2)) as H1 by (simpl; lia).
  split; [exact H1|]. split; [reflexivity|]. split; [exact H3|].
  split; [reflexivity|]. split; [exact demo_unit_tape|].
  split; [exact demo_fair_GF59|].
  apply (static_channel_twice V6 (Fixed 2) _ 1%positive msg6
           (demo_world msg6));
    [exact H1|reflexivity|exact H3|reflexivity|exact demo_unit_tape
    |exact demo_fair_GF59].
Defined.
